(** * Retirement projection engine: [calculateScenario] and the scenario set

    A shallow embedding of [src/components/RetirementSimulator.tsx]:
    the projection function [calculateScenario] (lines 45-99) and the
    effect that builds the five named scenarios (lines 101-133); with them
    the form's [handleInputChange] (lines 135-137), the rows
    [combinedData] of [src/components/SimulationChart.tsx] and the cards of
    [src/components/ScenarioComparison.tsx], up to the formatting of
    numbers as text.

    Numbers.  The source computes on JavaScript [number]s.  The embedding
    keeps the arithmetic the source performs ([+], [*], [/], [Math.pow] and
    its numeric literals) behind the interface [Number], so every definition
    is the source's expression tree; its instance [float_number] is
    IEEE-754 binary64, the numbers of the language, executable, with
    [Math.pow] as a parameter.  What holds of the structure of the result
    is proved for every instance; what depends on rounding is proved on
    binary64.  The two ages are integers (so the data model
    declares them, years between 18 and 80), so the year counter, the
    horizon and the age labels are in [Z], where the source's [-], [+],
    [<=], [<] and [++] on such values are exact. *)

From Stdlib Require Import ZArith List Lia String Bool.
From Stdlib Require Import Floats Uint63.
From Equations Require Import Equations.
Import ListNotations.

Local Open Scope Z_scope.

(** ** The arithmetic of [number] *)

Class Number (num : Type) : Type := {
  (** an integer literal of the source ([1], [12], [100]) *)
  lit : Z -> num;
  (** the literal [0.04] *)
  lit_0_04 : num;
  add : num -> num -> num;
  mul : num -> num -> num;
  div : num -> num -> num;
  (** [Math.pow base exponent], the exponent being integer valued *)
  pow : num -> Z -> num
}.

(** IEEE-754 binary64 with round-to-nearest-even, the [number] of the
    language.  The literal [0.04] denotes the binary64 nearest to it,
    [0x1.47ae147ae147bp-5].  [Math.pow] is implementation-approximated by
    the language definition, so it is taken as given. *)
Definition float_lit (z : Z) : float :=
  if z <? 0 then PrimFloat.opp (PrimFloat.of_uint63 (Uint63.of_Z (- z)))
  else PrimFloat.of_uint63 (Uint63.of_Z z).

Definition float_number (math_pow : float -> Z -> float) : Number float := {|
  lit := float_lit;
  lit_0_04 := 0x1.47ae147ae147bp-5%float;
  add := PrimFloat.add;
  mul := PrimFloat.mul;
  div := PrimFloat.div;
  pow := math_pow
|}.

(** ** Data model (source lines 13-30) *)

Section Model.

Context {num : Type} {N : Number num}.

Record SimulationInputs : Type := {
  currentAge : Z;
  retirementAge : Z;
  currentSavings : num;
  monthlyContribution : num;
  expectedReturn : num;
  inflationRate : num;
  retirementExpenses : num
}.

(** [Partial<SimulationInputs>]: a field is present or absent. *)
Record Modifications : Type := {
  mod_currentAge : option Z;
  mod_retirementAge : option Z;
  mod_currentSavings : option num;
  mod_monthlyContribution : option num;
  mod_expectedReturn : option num;
  mod_inflationRate : option num;
  mod_retirementExpenses : option num
}.

(** The default argument [{}]. *)
Definition no_modifications : Modifications := {|
  mod_currentAge := None;
  mod_retirementAge := None;
  mod_currentSavings := None;
  mod_monthlyContribution := None;
  mod_expectedReturn := None;
  mod_inflationRate := None;
  mod_retirementExpenses := None
|}.

Definition override {A : Type} (base : A) (o : option A) : A :=
  match o with
  | Some v => v
  | None => base
  end.

(** [{ ...inputs, ...modifications }] *)
Definition spread (inputs : SimulationInputs) (modifications : Modifications)
  : SimulationInputs := {|
  currentAge := override (currentAge inputs) (mod_currentAge modifications);
  retirementAge := override (retirementAge inputs) (mod_retirementAge modifications);
  currentSavings := override (currentSavings inputs) (mod_currentSavings modifications);
  monthlyContribution :=
    override (monthlyContribution inputs) (mod_monthlyContribution modifications);
  expectedReturn := override (expectedReturn inputs) (mod_expectedReturn modifications);
  inflationRate := override (inflationRate inputs) (mod_inflationRate modifications);
  retirementExpenses :=
    override (retirementExpenses inputs) (mod_retirementExpenses modifications)
|}.

(** One element of [data]: [{ year, amount, realValue }]. *)
Record DataPoint : Type := {
  year : Z;
  amount : num;
  realValue : num
}.

Record ScenarioResult : Type := {
  name : string;
  finalAmount : num;
  monthlyIncome : num;
  yearsOfIncome : num;
  data : list DataPoint;
  color : string
}.

(** ** [calculateScenario] (source lines 45-99) *)

Section Growth.

(** The destructured fields the two loops read, and the two constants
    computed before them. *)
Variables (age0 yearsToRetirement : Z).
Variables (contribution monthlyReturn inflation : num).

(** Line 74: [amount = amount * (1 + monthlyReturn) + monthlyContribution]. *)
Definition month_step (amt : num) : num :=
  add (mul amt (add (lit 1) monthlyReturn)) contribution.

(** Line 73: [for (month = 0; month < 12 && year < yearsToRetirement; month++)],
    [left] being [12 - month]; the second conjunct is tested before every
    iteration. *)
Fixpoint month_loop (yr : Z) (left : nat) (amt : num) : num :=
  match left with
  | O => amt
  | S left' =>
      if yr <? yearsToRetirement then month_loop yr left' (month_step amt)
      else amt
  end.

(** Lines 70-78: the body of the outer loop on the pair [(amount, data)]. *)
Definition year_body (yr : Z) (st : num * list DataPoint) : num * list DataPoint :=
  let currentYear := age0 + yr in
  let amt := month_loop yr 12 (fst st) in
  let real := div amt (pow (add (lit 1) (div inflation (lit 100))) yr) in
  (amt, snd st ++ [{| year := currentYear; amount := amt; realValue := real |}]).

(** Line 69: [for (year = 0; year <= yearsToRetirement; year++)], entered at
    [yr].  The distance to [yearsToRetirement + 1] decreases. *)
Equations? year_loop (yr : Z) (st : num * list DataPoint)
  : num * list DataPoint by wf (Z.to_nat (yearsToRetirement + 1 - yr)) lt :=
  year_loop yr st with Z_le_dec yr yearsToRetirement => {
    | left _ := year_loop (yr + 1) (year_body yr st);
    | right _ := st }.
Proof. lia. Qed.

End Growth.

Definition calculateScenario (inputs : SimulationInputs) (name color : string)
  (modifications : Modifications) : ScenarioResult :=
  let modifiedInputs := spread inputs modifications in
  let yearsToRetirement := retirementAge modifiedInputs - currentAge modifiedInputs in
  let monthlyReturn := div (div (expectedReturn modifiedInputs) (lit 100)) (lit 12) in
  let run :=
    year_loop (currentAge modifiedInputs) yearsToRetirement
      (monthlyContribution modifiedInputs) monthlyReturn
      (inflationRate modifiedInputs) 0 (currentSavings modifiedInputs, []) in
  let finalAmount := fst run in
  let withdrawalRate := lit_0_04 in
  let monthlyIncome := div (mul finalAmount withdrawalRate) (lit 12) in
  let realMonthlyIncome :=
    div monthlyIncome
      (pow (add (lit 1) (div (inflationRate modifiedInputs) (lit 100))) yearsToRetirement) in
  let yearsOfIncome :=
    div finalAmount (mul (retirementExpenses modifiedInputs) (lit 12)) in
  {| name := name;
     finalAmount := finalAmount;
     monthlyIncome := realMonthlyIncome;
     yearsOfIncome := yearsOfIncome;
     data := snd run;
     color := color |}.

(** ** The scenario set (source lines 101-133) *)

Definition buildScenarios (inputs : SimulationInputs) : list ScenarioResult :=
  let baseScenario := calculateScenario inputs "Base Case" "#0891b2" no_modifications in
  let inflationSpike :=
    calculateScenario inputs "Inflation Spike (5%)" "#dc2626"
      {| mod_currentAge := None; mod_retirementAge := None;
         mod_currentSavings := None; mod_monthlyContribution := None;
         mod_expectedReturn := None; mod_inflationRate := Some (lit 5);
         mod_retirementExpenses := None |} in
  let earlyRetirement :=
    calculateScenario inputs "Early Retirement (60)" "#7c3aed"
      {| mod_currentAge := None; mod_retirementAge := Some 60;
         mod_currentSavings := None; mod_monthlyContribution := None;
         mod_expectedReturn := None; mod_inflationRate := None;
         mod_retirementExpenses := None |} in
  let marketDownturn :=
    calculateScenario inputs "Market Downturn (4% return)" "#ea580c"
      {| mod_currentAge := None; mod_retirementAge := None;
         mod_currentSavings := None; mod_monthlyContribution := None;
         mod_expectedReturn := Some (lit 4); mod_inflationRate := None;
         mod_retirementExpenses := None |} in
  let optimistic :=
    calculateScenario inputs "Optimistic (10% return)" "#059669"
      {| mod_currentAge := None; mod_retirementAge := None;
         mod_currentSavings := None; mod_monthlyContribution := None;
         mod_expectedReturn := Some (lit 10); mod_inflationRate := None;
         mod_retirementExpenses := None |} in
  [baseScenario; inflationSpike; earlyRetirement; marketDownturn; optimistic].

End Model.

Arguments SimulationInputs num : clear implicits.
Arguments Modifications num : clear implicits.
Arguments DataPoint num : clear implicits.
Arguments ScenarioResult num : clear implicits.

(** ** Vocabulary of the statements *)

Section Vocabulary.

Context {num : Type} {N : Number num}.

(** The horizon and the monthly rate of an (already overridden) input set,
    lines 62 and 66. *)
Definition yearsToRetirement (m : SimulationInputs num) : Z :=
  retirementAge m - currentAge m.

Definition monthlyReturn (m : SimulationInputs num) : num :=
  div (div (expectedReturn m) (lit 100)) (lit 12).

(** The base of both discounts, [1 + inflationRate / 100]. *)
Definition inflation_base (m : SimulationInputs num) : num :=
  add (lit 1) (div (inflationRate m) (lit 100)).

(** The balance on entering year index [i] of a loop with horizon [Y]:
    twelve steps for each of the [min i Y] years that grew. *)
Definition balance (Y : Z) (contribution rate savings : num) (i : Z) : num :=
  Nat.iter (12 * Z.to_nat (Z.min i Y)) (month_step contribution rate) savings.

(** The point pushed by the iteration of year index [i]. *)
Definition point (age0 Y : Z) (contribution rate inflation savings : num) (i : Z)
  : DataPoint num :=
  let amt := balance Y contribution rate savings (i + 1) in
  {| year := age0 + i;
     amount := amt;
     realValue := div amt (pow (add (lit 1) (div inflation (lit 100))) i) |}.

(** The year indices the outer loop visits when entered at [yr]. *)
Definition years_from (Y yr : Z) : list Z :=
  map (fun j => yr + Z.of_nat j) (seq 0 (Z.to_nat (Y + 1 - yr))).

(** The same two, for an input set. *)
Definition balance_after (m : SimulationInputs num) (years : nat) : num :=
  Nat.iter (12 * years) (month_step (monthlyContribution m) (monthlyReturn m))
    (currentSavings m).

Definition point_at (m : SimulationInputs num) (i : nat) : DataPoint num :=
  point (currentAge m) (yearsToRetirement m) (monthlyContribution m)
    (monthlyReturn m) (inflationRate m) (currentSavings m) (Z.of_nat i).

(** The catalogue of the scenario set: name, colour, override. *)
Definition only_inflationRate (v : num) : Modifications num :=
  {| mod_currentAge := None; mod_retirementAge := None;
     mod_currentSavings := None; mod_monthlyContribution := None;
     mod_expectedReturn := None; mod_inflationRate := Some v;
     mod_retirementExpenses := None |}.

Definition only_retirementAge (v : Z) : Modifications num :=
  {| mod_currentAge := None; mod_retirementAge := Some v;
     mod_currentSavings := None; mod_monthlyContribution := None;
     mod_expectedReturn := None; mod_inflationRate := None;
     mod_retirementExpenses := None |}.

Definition only_expectedReturn (v : num) : Modifications num :=
  {| mod_currentAge := None; mod_retirementAge := None;
     mod_currentSavings := None; mod_monthlyContribution := None;
     mod_expectedReturn := Some v; mod_inflationRate := None;
     mod_retirementExpenses := None |}.

Definition catalogue : list (string * string * Modifications num) :=
  [ ("Base Case"%string, "#0891b2"%string, no_modifications);
    ("Inflation Spike (5%)"%string, "#dc2626"%string, only_inflationRate (lit 5));
    ("Early Retirement (60)"%string, "#7c3aed"%string, only_retirementAge 60);
    ("Market Downturn (4% return)"%string, "#ea580c"%string, only_expectedReturn (lit 4));
    ("Optimistic (10% return)"%string, "#059669"%string, only_expectedReturn (lit 10)) ].

(** A trajectory made of one point, at [currentAge], worth [currentSavings]. *)
Definition single_point_at_start (m : SimulationInputs num) (r : ScenarioResult num)
  : Prop :=
  exists p, data r = [p] /\ year p = currentAge m /\ amount p = currentSavings m.

End Vocabulary.

(** ** Input sets used below *)

(** The initial state of the form (source lines 33-41). *)
Definition initial_inputs : SimulationInputs float :=
  {| currentAge := 30; retirementAge := 65;
     currentSavings := 50000%float; monthlyContribution := 2000%float;
     expectedReturn := 7%float; inflationRate := 3%float;
     retirementExpenses := 5000%float |}.

(** Already past the retirement age: a horizon of [-5]. *)
Definition late_inputs : SimulationInputs float :=
  {| currentAge := 70; retirementAge := 65;
     currentSavings := 50000%float; monthlyContribution := 2000%float;
     expectedReturn := 7%float; inflationRate := 3%float;
     retirementExpenses := 5000%float |}.

(** Nothing saved and nothing paid in, one year before retirement. *)
Definition idle_inputs : SimulationInputs float :=
  {| currentAge := 64; retirementAge := 65;
     currentSavings := 0%float; monthlyContribution := 0%float;
     expectedReturn := 7%float; inflationRate := 3%float;
     retirementExpenses := 5000%float |}.

(** No expenses in retirement, retiring now. *)
Definition free_inputs : SimulationInputs float :=
  {| currentAge := 65; retirementAge := 65;
     currentSavings := 50000%float; monthlyContribution := 2000%float;
     expectedReturn := 7%float; inflationRate := 3%float;
     retirementExpenses := 0%float |}.

(** A balance so large that a contribution of 1 is lost in the rounding of
    every step, at no return. *)
Definition absorbed_inputs : SimulationInputs float :=
  {| currentAge := 30; retirementAge := 32;
     currentSavings := 100000000000000000%float; monthlyContribution := 1%float;
     expectedReturn := 0%float; inflationRate := 3%float;
     retirementExpenses := 5000%float |}.

(** The smallest positive balance: a month at 7 percent rounds back to it. *)
Definition tiny_inputs : SimulationInputs float :=
  {| currentAge := 30; retirementAge := 32;
     currentSavings := 0x1p-1074%float; monthlyContribution := 0%float;
     expectedReturn := 7%float; inflationRate := 3%float;
     retirementExpenses := 5000%float |}.

(** The worked scenario of the specification: one year at 12 percent. *)
Definition seed_inputs : SimulationInputs float :=
  {| currentAge := 30; retirementAge := 31;
     currentSavings := 1000%float; monthlyContribution := 0%float;
     expectedReturn := 12%float; inflationRate := 0%float;
     retirementExpenses := 100%float |}.

(** ** The form: [handleInputChange] (RetirementSimulator.tsx, lines 135-137) *)

(** [keyof SimulationInputs] *)
Inductive Field : Type :=
| k_currentAge
| k_retirementAge
| k_currentSavings
| k_monthlyContribution
| k_expectedReturn
| k_inflationRate
| k_retirementExpenses.

(** What a field holds: the two ages are integers, the rest are numbers. *)
Definition FieldValue (num : Type) (field : Field) : Type :=
  match field with
  | k_currentAge | k_retirementAge => Z
  | _ => num
  end.

(** [inputs[field]] *)
Definition read_field {num : Type} (field : Field) (inputs : SimulationInputs num)
  : FieldValue num field :=
  match field with
  | k_currentAge => currentAge inputs
  | k_retirementAge => retirementAge inputs
  | k_currentSavings => currentSavings inputs
  | k_monthlyContribution => monthlyContribution inputs
  | k_expectedReturn => expectedReturn inputs
  | k_inflationRate => inflationRate inputs
  | k_retirementExpenses => retirementExpenses inputs
  end.

(** The updater [prev => ({ ...prev, [field]: value })] that
    [handleInputChange field value] hands to [setInputs]. *)
Definition handleInputChange {num : Type} (field : Field)
  : FieldValue num field -> SimulationInputs num -> SimulationInputs num :=
  match field with
  | k_currentAge => fun value prev =>
      {| currentAge := value; retirementAge := retirementAge prev;
         currentSavings := currentSavings prev;
         monthlyContribution := monthlyContribution prev;
         expectedReturn := expectedReturn prev; inflationRate := inflationRate prev;
         retirementExpenses := retirementExpenses prev |}
  | k_retirementAge => fun value prev =>
      {| currentAge := currentAge prev; retirementAge := value;
         currentSavings := currentSavings prev;
         monthlyContribution := monthlyContribution prev;
         expectedReturn := expectedReturn prev; inflationRate := inflationRate prev;
         retirementExpenses := retirementExpenses prev |}
  | k_currentSavings => fun value prev =>
      {| currentAge := currentAge prev; retirementAge := retirementAge prev;
         currentSavings := value;
         monthlyContribution := monthlyContribution prev;
         expectedReturn := expectedReturn prev; inflationRate := inflationRate prev;
         retirementExpenses := retirementExpenses prev |}
  | k_monthlyContribution => fun value prev =>
      {| currentAge := currentAge prev; retirementAge := retirementAge prev;
         currentSavings := currentSavings prev;
         monthlyContribution := value;
         expectedReturn := expectedReturn prev; inflationRate := inflationRate prev;
         retirementExpenses := retirementExpenses prev |}
  | k_expectedReturn => fun value prev =>
      {| currentAge := currentAge prev; retirementAge := retirementAge prev;
         currentSavings := currentSavings prev;
         monthlyContribution := monthlyContribution prev;
         expectedReturn := value; inflationRate := inflationRate prev;
         retirementExpenses := retirementExpenses prev |}
  | k_inflationRate => fun value prev =>
      {| currentAge := currentAge prev; retirementAge := retirementAge prev;
         currentSavings := currentSavings prev;
         monthlyContribution := monthlyContribution prev;
         expectedReturn := expectedReturn prev; inflationRate := value;
         retirementExpenses := retirementExpenses prev |}
  | k_retirementExpenses => fun value prev =>
      {| currentAge := currentAge prev; retirementAge := retirementAge prev;
         currentSavings := currentSavings prev;
         monthlyContribution := monthlyContribution prev;
         expectedReturn := expectedReturn prev; inflationRate := inflationRate prev;
         retirementExpenses := value |}
  end.

(** The object [{ [field]: value }] as a [Partial<SimulationInputs>], the
    shape of the overrides of lines 108, 115, 122 and 129. *)
Definition only_field {num : Type} (field : Field)
  : FieldValue num field -> Modifications num :=
  match field with
  | k_currentAge => fun value =>
      {| mod_currentAge := Some value; mod_retirementAge := None;
         mod_currentSavings := None; mod_monthlyContribution := None;
         mod_expectedReturn := None; mod_inflationRate := None;
         mod_retirementExpenses := None |}
  | k_retirementAge => fun value =>
      {| mod_currentAge := None; mod_retirementAge := Some value;
         mod_currentSavings := None; mod_monthlyContribution := None;
         mod_expectedReturn := None; mod_inflationRate := None;
         mod_retirementExpenses := None |}
  | k_currentSavings => fun value =>
      {| mod_currentAge := None; mod_retirementAge := None;
         mod_currentSavings := Some value; mod_monthlyContribution := None;
         mod_expectedReturn := None; mod_inflationRate := None;
         mod_retirementExpenses := None |}
  | k_monthlyContribution => fun value =>
      {| mod_currentAge := None; mod_retirementAge := None;
         mod_currentSavings := None; mod_monthlyContribution := Some value;
         mod_expectedReturn := None; mod_inflationRate := None;
         mod_retirementExpenses := None |}
  | k_expectedReturn => fun value =>
      {| mod_currentAge := None; mod_retirementAge := None;
         mod_currentSavings := None; mod_monthlyContribution := None;
         mod_expectedReturn := Some value; mod_inflationRate := None;
         mod_retirementExpenses := None |}
  | k_inflationRate => fun value =>
      {| mod_currentAge := None; mod_retirementAge := None;
         mod_currentSavings := None; mod_monthlyContribution := None;
         mod_expectedReturn := None; mod_inflationRate := Some value;
         mod_retirementExpenses := None |}
  | k_retirementExpenses => fun value =>
      {| mod_currentAge := None; mod_retirementAge := None;
         mod_currentSavings := None; mod_monthlyContribution := None;
         mod_expectedReturn := None; mod_inflationRate := None;
         mod_retirementExpenses := Some value |}
  end.

(** ** The chart data: [combinedData] (SimulationChart.tsx, lines 27-39) *)

(** A row of the chart is an object whose ["year"] key holds an age and whose
    other keys hold amounts.  It is read through its keys: the latest
    assignment to a key is the one found.  The order of the keys is not
    modelled. *)
Inductive Cell (num : Type) : Type :=
| AgeCell (age : Z)
| NumCell (value : num).

Arguments AgeCell {num} age.
Arguments NumCell {num} value.

Definition DataRow (num : Type) : Type := list (string * Cell num).

(** [dataPoint[key] = value] for a number [value] on an object made by a
    literal: an own property, the last assignment first; the key
    ["__proto__"] is the one inherited setter, and it ignores a number. *)
Definition row_set {num : Type} (key : string) (value : Cell num)
  (dataPoint : DataRow num) : DataRow num :=
  if String.eqb key "__proto__" then dataPoint else (key, value) :: dataPoint.

(** The own property [key] of [dataPoint], [None] where it has none. *)
Fixpoint row_get {num : Type} (key : string) (dataPoint : DataRow num)
  : option (Cell num) :=
  match dataPoint with
  | [] => None
  | (k, v) :: rest => if String.eqb key k then Some v else row_get key rest
  end.

(** Lines 31-35: the body of [scenarios.forEach] for one scenario. *)
Definition add_series {num : Type} (basePoint : DataPoint num)
  (dataPoint : DataRow num) (scenario : ScenarioResult num) : DataRow num :=
  match find (fun p => year p =? year basePoint) (data scenario) with
  | Some matchingPoint =>
      row_set (name scenario ++ "_real") (NumCell (realValue matchingPoint))
        (row_set (name scenario) (NumCell (amount matchingPoint)) dataPoint)
  | None => dataPoint
  end.

(** The two keys a scenario writes. *)
Definition series_keys {num : Type} (s : ScenarioResult num) : list string :=
  [name s; (name s ++ "_real")%string].

(** Lines 27-39: [scenarios[0]?.data.map(...) || []]. *)
Definition combinedData {num : Type} (scenarios : list (ScenarioResult num))
  : list (DataRow num) :=
  match scenarios with
  | [] => []
  | first :: _ =>
      map (fun basePoint =>
             fold_left (add_series basePoint) scenarios
               [("year"%string, AgeCell (year basePoint))])
          (data first)
  end.

(** ** The comparison cards (ScenarioComparison.tsx, lines 19-165)

    The arithmetic here is that of the numbers of the language.  The texts
    produced by [Intl.NumberFormat] and [toFixed] are not modelled: a card
    holds the values the component computes before formatting them. *)

(** Lines 36-38. *)
Definition calculateDifference (value baseValue : float) : float :=
  PrimFloat.mul (PrimFloat.div (PrimFloat.sub value baseValue) baseValue) 100%float.

(** An icon element: its component and its [className]. *)
Record Icon : Type := {
  icon_component : string;
  icon_className : string
}.

(** Lines 40-44. *)
Definition getDifferenceIcon (percentage : float) : Icon :=
  if PrimFloat.ltb 5%float percentage then
    {| icon_component := "TrendingUp"; icon_className := "h-4 w-4 text-success" |}
  else if PrimFloat.ltb percentage (PrimFloat.opp 5%float) then
    {| icon_component := "TrendingDown"; icon_className := "h-4 w-4 text-destructive" |}
  else
    {| icon_component := "Minus"; icon_className := "h-4 w-4 text-muted-foreground" |}.

(** Lines 46-50. *)
Definition getDifferenceColor (percentage : float) : string :=
  if PrimFloat.ltb 5%float percentage then "text-success"
  else if PrimFloat.ltb percentage (PrimFloat.opp 5%float) then "text-destructive"
  else "text-muted-foreground".

(** Lines 52-65. *)
Definition getScenarioInsight {num : Type} (scenario : ScenarioResult num) : string :=
  if String.eqb (name scenario) "Inflation Spike (5%)" then
    "Higher inflation reduces purchasing power of retirement savings"
  else if String.eqb (name scenario) "Early Retirement (60)" then
    "Retiring 5 years early significantly reduces accumulation time"
  else if String.eqb (name scenario) "Market Downturn (4% return)" then
    "Lower returns require higher savings or later retirement"
  else if String.eqb (name scenario) "Optimistic (10% return)" then
    "Higher returns can significantly boost retirement readiness"
  else "Your baseline retirement projection".

(** [Math.max(...values)] as the language defines it: [NaN] if a value is
    [NaN]; otherwise the values are folded from [-Infinity], a value
    replacing the highest so far when it is greater, and [+0] replacing
    [-0]. *)
Definition is_pos_zero (x : float) : bool :=
  match PrimFloat.classify x with PZero => true | _ => false end.

Definition is_neg_zero (x : float) : bool :=
  match PrimFloat.classify x with NZero => true | _ => false end.

Definition max_step (highest number : float) : float :=
  if is_pos_zero number && is_neg_zero highest then number
  else if PrimFloat.ltb highest number then number
  else highest.

Definition math_max (values : list float) : float :=
  if existsb PrimFloat.is_nan values then nan
  else fold_left max_step values neg_infinity.

(** The block under a figure, lines 115-118 and 139-142: its colour class,
    its icon and the sign written before the percentage. *)
Record Trend : Type := {
  trend_color : string;
  trend_icon : Icon;
  trend_sign : string
}.

Definition trend_of (diff : float) : Trend :=
  {| trend_color := getDifferenceColor diff;
     trend_icon := getDifferenceIcon diff;
     trend_sign := if PrimFloat.ltb 0%float diff then "+" else "" |}.

(** What one card shows of a scenario, lines 72-164. *)
Record Card : Type := {
  card_scenario : ScenarioResult float;
  card_isBaseCase : bool;
  card_insight : string;
  card_savingsDiff : float;
  card_incomeDiff : float;
  card_savingsTrend : option Trend;
  card_incomeTrend : option Trend;
  card_progress : float
}.

Definition card_of (baseScenario : ScenarioResult float) (maxSavings : float)
  (scenario : ScenarioResult float) : Card :=
  let savingsDiff :=
    calculateDifference (finalAmount scenario) (finalAmount baseScenario) in
  let incomeDiff :=
    calculateDifference (monthlyIncome scenario) (monthlyIncome baseScenario) in
  let isBaseCase := String.eqb (name scenario) "Base Case" in
  {| card_scenario := scenario;
     card_isBaseCase := isBaseCase;
     card_insight := getScenarioInsight scenario;
     card_savingsDiff := savingsDiff;
     card_incomeDiff := incomeDiff;
     card_savingsTrend := if isBaseCase then None else Some (trend_of savingsDiff);
     card_incomeTrend := if isBaseCase then None else Some (trend_of incomeDiff);
     card_progress :=
       PrimFloat.mul (PrimFloat.div (finalAmount scenario) maxSavings) 100%float |}.

(** Lines 19-21 and 67-72: [None] for [return null]. *)
Definition ScenarioComparison (scenarios : list (ScenarioResult float))
  : option (list Card) :=
  match find (fun s => String.eqb (name s) "Base Case") scenarios with
  | None => None
  | Some baseScenario =>
      let maxSavings := math_max (map finalAmount scenarios) in
      Some (map (card_of baseScenario maxSavings) scenarios)
  end.

(** ** Values for the examples *)

(** A power by repeated multiplication, to run the projections that call
    [Math.pow]. *)
Definition pow_repeated (x : float) (k : Z) : float :=
  match k with
  | Z0 => 1%float
  | Zpos p => Pos.iter (PrimFloat.mul x) 1%float p
  | Zneg p => PrimFloat.div 1%float (Pos.iter (PrimFloat.mul x) 1%float p)
  end.

(** A series for the chart, given by its name and its points. *)
Definition series_of (name' : string) (points : list (DataPoint float))
  : ScenarioResult float :=
  {| name := name'; finalAmount := 0%float; monthlyIncome := 0%float;
     yearsOfIncome := 0%float; data := points; color := "#000000" |}.

Definition point_40 : DataPoint float :=
  {| year := 40; amount := 100%float; realValue := 90%float |}.

(** An outcome for the comparison, given by its name and its two figures. *)
Definition outcome_of (name' : string) (finalAmount' monthlyIncome' : float)
  : ScenarioResult float :=
  {| name := name'; finalAmount := finalAmount'; monthlyIncome := monthlyIncome';
     yearsOfIncome := 0%float; data := []; color := "#000000" |}.

(** Three outcomes, the baseline second and a second outcome of its name
    third, and their cards. *)
Definition sample_plans : list (ScenarioResult float) :=
  [ outcome_of "Plan B" 150%float 6%float;
    outcome_of "Base Case" 100%float 4%float;
    outcome_of "Base Case" 300%float 9%float ].

Definition sample_cards : list Card :=
  map (card_of (outcome_of "Base Case" 100%float 4%float)
         (math_max (map finalAmount sample_plans)))
    sample_plans.

(** ** Vocabulary for binary64

    The numbers of the language are [float]; [Prim2SF] reads one as a sign,
    a mantissa and an exponent ([spec_float]), on which the operations are
    specified.  The definitions below name what the rounding of an
    operation leaves and give the numbers that are not negative an integer
    value to compare them by. *)

Module Binary64.

(** The exponent of the last place of a number with [e] as exponent of its
    first place: 53 bits of precision, subnormal below [2 ^ -1021]. *)
Definition fexp64 (e : Z) : Z := Z.max (e - 53) (-1074).

(** The exponent and the mantissa [shr_fexp] leaves of [m * 2 ^ e]. *)
Definition shift_e (m e : Z) : Z := Z.max e (fexp64 (Zdigits2 m + e)).

Definition shift_m (m e : Z) : Z := m / 2 ^ (shift_e m e - e).

(** The last step of [binary_round_aux]. *)
Definition finish (sx : bool) (mz ez : Z) : spec_float :=
  match mz with
  | Z0 => S754_zero sx
  | Zpos p => if ez <=? 971 then S754_finite sx p ez else S754_infinity sx
  | Zneg _ => S754_nan
  end.

(** Values are compared as integers: [m * pw e] is [m * 2 ^ e] scaled by
    [2 ^ 2148]. *)
Definition pw (e : Z) : Z := 2 ^ (e + 2148).

(** Zero of either sign, a positive number or [+Infinity]; not [NaN]. *)
Definition nonneg (s : spec_float) : Prop :=
  match s with
  | S754_zero _ => True
  | S754_infinity sx => sx = false
  | S754_nan => False
  | S754_finite sx _ _ => sx = false
  end.

(** The value scaled by [2 ^ 1074], an integer: [unit_val] is the value of
    1, and [top] stands for infinity, above every finite value. *)
Definition unit_val : Z := 2 ^ 1074.

Definition top : Z := 2 ^ 2100.

Definition val (s : spec_float) : Z :=
  match s with
  | S754_zero _ => 0
  | S754_infinity _ => top
  | S754_nan => 0
  | S754_finite _ m e => Zpos m * 2 ^ (e + 1074)
  end.

Definition valid (s : spec_float) : Prop :=
  SpecFloat.valid_binary prec emax s = true.

Definition fnonneg (x : float) : Prop := nonneg (Prim2SF x).

Definition fval (x : float) : Z := val (Prim2SF x).

End Binary64.

(** ** The loops in closed form *)

Section Closed_form.

Context {num : Type} {N : Number num}.
Variables (age0 Y : Z) (contribution rate inflation savings : num).

Let step : num -> num := month_step contribution rate.
Let bal : Z -> num := balance Y contribution rate savings.
Let pt : Z -> DataPoint num := point age0 Y contribution rate inflation savings.

Lemma month_loop_iter (yr : Z) (n : nat) (a : num) :
  month_loop Y contribution rate yr n a
  = if yr <? Y then Nat.iter n step a else a.
Proof.
  revert a; induction n as [|n IH]; intros a; cbn [month_loop].
  - now destruct (yr <? Y).
  - destruct (yr <? Y) eqn:E; [|reflexivity].
    rewrite IH. symmetry. apply Nat.iter_succ_r.
Qed.

Lemma balance_step (yr : Z) :
  0 <= yr ->
  (if yr <? Y then Nat.iter 12 step (bal yr) else bal yr) = bal (yr + 1).
Proof.
  intros Hyr. subst bal step. unfold balance. destruct (Z.ltb_spec yr Y) as [Hlt|Hge].
  - rewrite (Z.min_l yr Y), (Z.min_l (yr + 1) Y) by lia.
    replace (12 * Z.to_nat (yr + 1))%nat with (12 + 12 * Z.to_nat yr)%nat by lia.
    now rewrite Nat.iter_add.
  - now rewrite (Z.min_r yr Y), (Z.min_r (yr + 1) Y) by lia.
Qed.

Lemma year_body_balance (yr : Z) (d : list (DataPoint num)) :
  0 <= yr ->
  year_body age0 Y contribution rate inflation yr (bal yr, d)
  = (bal (yr + 1), d ++ [pt yr]).
Proof.
  intros Hyr. unfold year_body; subst pt; unfold point; cbn [fst snd].
  rewrite month_loop_iter, balance_step by assumption. reflexivity.
Qed.

Lemma year_loop_done (yr : Z) (st : num * list (DataPoint num)) :
  Y < yr ->
  year_loop age0 Y contribution rate inflation yr st = st.
Proof.
  intros H. simp year_loop. destruct (Z_le_dec yr Y); [lia | reflexivity].
Qed.

Lemma year_loop_next (yr : Z) (st : num * list (DataPoint num)) :
  yr <= Y ->
  year_loop age0 Y contribution rate inflation yr st
  = year_loop age0 Y contribution rate inflation (yr + 1)
      (year_body age0 Y contribution rate inflation yr st).
Proof.
  intros H. rewrite year_loop_equation_1 at 1.
  destruct (Z_le_dec yr Y); [reflexivity | lia].
Qed.

Lemma years_from_done (yr : Z) : Y < yr -> years_from Y yr = [].
Proof.
  intros H. unfold years_from. now replace (Z.to_nat (Y + 1 - yr)) with O by lia.
Qed.

Lemma years_from_next (yr : Z) :
  yr <= Y -> years_from Y yr = yr :: years_from Y (yr + 1).
Proof.
  intros H. unfold years_from.
  replace (Z.to_nat (Y + 1 - yr)) with (S (Z.to_nat (Y + 1 - (yr + 1)))) by lia.
  cbn [seq map]. f_equal; [lia|].
  rewrite <- seq_shift, map_map. apply map_ext. intros j. lia.
Qed.

(** Invariant of the outer loop: on entering year [yr] the amount is
    [bal yr]; the loop leaves [bal (Y + 1)] and has pushed one point per
    year visited. *)
Lemma year_loop_balance (n : nat) :
  forall (yr : Z) (d : list (DataPoint num)),
    Z.to_nat (Y + 1 - yr) = n -> 0 <= yr ->
    year_loop age0 Y contribution rate inflation yr (bal yr, d)
    = (bal (Z.max yr (Y + 1)), d ++ map pt (years_from Y yr)).
Proof.
  induction n as [|n IH]; intros yr d Hn Hyr.
  - rewrite year_loop_done, years_from_done by lia.
    now rewrite Z.max_l, app_nil_r by lia.
  - rewrite year_loop_next, year_body_balance, years_from_next by lia.
    rewrite IH by lia. cbn [map].
    now rewrite Z.max_r, (Z.max_r yr) , <- app_assoc by lia.
Qed.

(** The whole run of the outer loop from [(currentSavings, [])]. *)
Lemma year_loop_run :
  year_loop age0 Y contribution rate inflation 0 (savings, [])
  = (Nat.iter (12 * Z.to_nat Y) step savings, map pt (years_from Y 0)).
Proof.
  assert (H0 : savings = bal 0).
  { subst bal; unfold balance. now replace (Z.to_nat (Z.min 0 Y)) with O by lia. }
  rewrite H0 at 1.
  rewrite (year_loop_balance (Z.to_nat (Y + 1 - 0))) by lia.
  f_equal. subst bal step; unfold balance. f_equal. lia.
Qed.

End Closed_form.

(** ** What [calculateScenario] returns *)

Section Engine_facts.

Context {num : Type} {N : Number num}.
Implicit Types (inputs m : SimulationInputs num) (mods : Modifications num).
Implicit Types (name color : string).

Lemma calculateScenario_data inputs name color mods :
  let m := spread inputs mods in
  data (calculateScenario inputs name color mods)
  = map (point_at m) (seq 0 (Z.to_nat (yearsToRetirement m + 1))).
Proof.
  intros m. unfold calculateScenario. cbv zeta. cbn [data].
  rewrite year_loop_run. cbn [snd]. unfold years_from. rewrite map_map.
  replace (retirementAge (spread inputs mods) - currentAge (spread inputs mods) + 1 - 0)
    with (yearsToRetirement m + 1) by (unfold yearsToRetirement; subst m; lia).
  reflexivity.
Qed.

Lemma calculateScenario_finalAmount inputs name color mods :
  let m := spread inputs mods in
  finalAmount (calculateScenario inputs name color mods)
  = balance_after m (Z.to_nat (yearsToRetirement m)).
Proof.
  intros m. unfold calculateScenario. cbv zeta. cbn [finalAmount].
  now rewrite year_loop_run.
Qed.

Lemma year_point_at m (i : nat) : year (point_at m i) = currentAge m + Z.of_nat i.
Proof. reflexivity. Qed.

Lemma amount_point_at m (i : nat) :
  amount (point_at m i)
  = balance_after m (Nat.min (S i) (Z.to_nat (yearsToRetirement m))).
Proof.
  unfold point_at, point, balance, balance_after; cbn [amount].
  f_equal. lia.
Qed.

Lemma realValue_point_at m (i : nat) :
  realValue (point_at m i)
  = div (amount (point_at m i)) (pow (inflation_base m) (Z.of_nat i)).
Proof. reflexivity. Qed.

Lemma balance_after_S m (k : nat) :
  balance_after m (S k)
  = Nat.iter 12 (month_step (monthlyContribution m) (monthlyReturn m))
      (balance_after m k).
Proof.
  unfold balance_after.
  replace (12 * S k)%nat with (12 + 12 * k)%nat by lia.
  apply Nat.iter_add.
Qed.

Lemma data_nth inputs name color mods (i : nat) :
  let m := spread inputs mods in
  Z.of_nat i <= yearsToRetirement m ->
  nth_error (data (calculateScenario inputs name color mods)) i
  = Some (point_at m i).
Proof.
  intros m Hi. rewrite calculateScenario_data. fold m.
  rewrite nth_error_map.
  rewrite (nth_error_nth' _ O) by (rewrite length_seq; lia).
  rewrite seq_nth by lia. reflexivity.
Qed.

Lemma data_In inputs name color mods (p : DataPoint num) :
  let m := spread inputs mods in
  In p (data (calculateScenario inputs name color mods)) ->
  exists i : nat, Z.of_nat i <= yearsToRetirement m /\ p = point_at m i.
Proof.
  intros m. rewrite calculateScenario_data. fold m.
  rewrite in_map_iff. intros (i & <- & Hi). apply in_seq in Hi.
  exists i. split; [lia | reflexivity].
Qed.

(** The balance at the end of year [k], and the balance year [k] opens with. *)
Lemma closing_nth inputs name color mods (k : nat) :
  let m := spread inputs mods in
  Z.of_nat k <= yearsToRetirement m ->
  nth_error (map amount (data (calculateScenario inputs name color mods))) k
  = Some (balance_after m (Nat.min (S k) (Z.to_nat (yearsToRetirement m)))).
Proof.
  intros m Hk. rewrite nth_error_map, data_nth by assumption.
  cbn [option_map]. now rewrite amount_point_at.
Qed.

Lemma opening_nth inputs name color mods (k : nat) :
  let m := spread inputs mods in
  Z.of_nat k <= yearsToRetirement m ->
  nth_error
    (currentSavings m :: map amount (data (calculateScenario inputs name color mods))) k
  = Some (balance_after m k).
Proof.
  intros m Hk. destruct k as [|k]; [reflexivity|].
  cbn [nth_error]. rewrite closing_nth by (fold m; lia).
  fold m. do 2 f_equal. lia.
Qed.

(** C1, as amended: with a negative horizon ([retirementAge < currentAge])
    the loop body never runs, so [calculateScenario] returns a result whose
    trajectory is empty, whose [finalAmount] is [currentSavings] and whose
    [yearsOfIncome] is [currentSavings / (retirementExpenses * 12)]: no growth
    is simulated and no point is recorded. *)
Theorem negative_horizon_result inputs name color mods :
  let m := spread inputs mods in
  let r := calculateScenario inputs name color mods in
  yearsToRetirement m < 0 ->
  data r = []
  /\ finalAmount r = currentSavings m
  /\ yearsOfIncome r = div (currentSavings m) (mul (retirementExpenses m) (lit 12)).
Proof.
  intros m r HY.
  assert (Hfin : finalAmount r = currentSavings m).
  { subst r. rewrite calculateScenario_finalAmount. fold m.
    now replace (Z.to_nat (yearsToRetirement m)) with O by lia. }
  split; [|split].
  - subst r. rewrite calculateScenario_data. fold m.
    now replace (Z.to_nat (yearsToRetirement m + 1)) with O by lia.
  - exact Hfin.
  - change (yearsOfIncome r)
      with (div (finalAmount r) (mul (retirementExpenses m) (lit 12))).
    now rewrite Hfin.
Qed.

(** The single point at [currentAge] worth [currentSavings] is what a horizon
    of zero produces. *)
Lemma zero_horizon_result inputs name color mods :
  let m := spread inputs mods in
  let r := calculateScenario inputs name color mods in
  yearsToRetirement m = 0 ->
  single_point_at_start m r /\ finalAmount r = currentSavings m.
Proof.
  intros m r HY. split.
  - exists (point_at m 0). subst r. rewrite calculateScenario_data. fold m.
    rewrite HY. cbn [Z.add Z.to_nat Pos.to_nat Pos.iter_op seq map].
    repeat split.
    + rewrite year_point_at. lia.
    + rewrite amount_point_at, HY. reflexivity.
  - subst r. rewrite calculateScenario_finalAmount. fold m. now rewrite HY.
Qed.

(** C2: with a horizon [Y >= 0] the monthly rate is
    [expectedReturn / 100 / 12]; each year [k < Y] closes on the balance
    it opened with after exactly twelve steps
    [amount * (1 + monthlyRate) + monthlyContribution] (growth first, then the
    contribution, which is not grown in its own month); the year [Y] closes
    on the balance it opened with, no step applied.  Year 0 opens with
    [currentSavings], year [k + 1] with the closing balance of year [k]. *)
Theorem monthly_compounding inputs name color mods :
  let m := spread inputs mods in
  let r := calculateScenario inputs name color mods in
  let monthlyRate := div (div (expectedReturn m) (lit 100)) (lit 12) in
  let month := fun amt => add (mul amt (add (lit 1) monthlyRate)) (monthlyContribution m) in
  let closing := map amount (data r) in
  let opening := currentSavings m :: closing in
  0 <= yearsToRetirement m ->
  (forall k : nat, Z.of_nat k < yearsToRetirement m ->
     exists a, nth_error opening k = Some a
               /\ nth_error closing k = Some (Nat.iter 12 month a))
  /\ (exists a, nth_error opening (Z.to_nat (yearsToRetirement m)) = Some a
                /\ nth_error closing (Z.to_nat (yearsToRetirement m)) = Some a).
Proof.
  intros m r monthlyRate month closing opening HY. split.
  - intros k Hk. exists (balance_after m k). subst opening closing r. split.
    + apply opening_nth. fold m. lia.
    + rewrite closing_nth by (fold m; lia). fold m.
      replace (Nat.min (S k) (Z.to_nat (yearsToRetirement m))) with (S k) by lia.
      now rewrite balance_after_S.
  - exists (balance_after m (Z.to_nat (yearsToRetirement m))).
    subst opening closing r. split.
    + apply opening_nth. fold m. lia.
    + rewrite closing_nth by (fold m; lia). fold m.
      do 2 f_equal. lia.
Qed.

(** C3: [buildScenarios] returns exactly five results, named in the fixed
    order of the catalogue with "Base Case" first; each is one call of
    [calculateScenario] on the same base inputs with that entry's own
    override alone, and the entry named "Base Case" is
    [calculateScenario inputs "Base Case" "#0891b2" {}]. *)
Theorem buildScenarios_catalogue inputs :
  let scenarios := buildScenarios inputs in
  List.length scenarios = 5%nat
  /\ map name scenarios
     = [ "Base Case"%string; "Inflation Spike (5%)"%string;
         "Early Retirement (60)"%string; "Market Downturn (4% return)"%string;
         "Optimistic (10% return)"%string ]
  /\ scenarios
     = map (fun e => calculateScenario inputs (fst (fst e)) (snd (fst e)) (snd e))
         catalogue
  /\ hd_error scenarios
     = Some (calculateScenario inputs "Base Case" "#0891b2" no_modifications)
  /\ (forall r, In r scenarios -> name r = "Base Case"%string ->
        r = calculateScenario inputs "Base Case" "#0891b2" no_modifications).
Proof.
  intros scenarios. repeat split.
  intros r Hr Hname. subst scenarios. unfold buildScenarios in Hr.
  cbn [In] in Hr.
  destruct Hr as [<- | [<- | [<- | [<- | [<- | []]]]]];
    first [reflexivity | discriminate Hname].
Qed.

(** C4: with a horizon [Y >= 0] the trajectory has [Y + 1] points, aged
    [currentAge], [currentAge + 1], ..., each one more than the one before,
    the first [currentAge] and the last [retirementAge]. *)
Theorem trajectory_ages inputs name color mods :
  let m := spread inputs mods in
  let ages := map year (data (calculateScenario inputs name color mods)) in
  0 <= yearsToRetirement m ->
  Z.of_nat (List.length ages) = yearsToRetirement m + 1
  /\ ages = map (fun i => currentAge m + Z.of_nat i) (seq 0 (List.length ages))
  /\ (forall i a b, nth_error ages i = Some a -> nth_error ages (S i) = Some b ->
        b = a + 1)
  /\ hd_error ages = Some (currentAge m)
  /\ (exists front, ages = front ++ [retirementAge m]).
Proof.
  intros m ages HY.
  assert (Hages : ages = map (fun i => currentAge m + Z.of_nat i)
                           (seq 0 (S (Z.to_nat (yearsToRetirement m))))).
  { subst ages. rewrite calculateScenario_data. fold m. rewrite map_map.
    replace (Z.to_nat (yearsToRetirement m + 1))
      with (S (Z.to_nat (yearsToRetirement m))) by lia.
    reflexivity. }
  assert (Hlen : List.length ages = S (Z.to_nat (yearsToRetirement m))).
  { now rewrite Hages, length_map, length_seq. }
  split; [lia|]. split; [now rewrite Hlen|]. split; [|split].
  - intros i a b Ha Hb.
    assert (Hi : (S i < List.length ages)%nat) by (apply nth_error_Some; congruence).
    rewrite Hages in Ha, Hb. rewrite nth_error_map in Ha, Hb.
    rewrite (nth_error_nth' _ O) in Ha by (rewrite length_seq; lia).
    rewrite (nth_error_nth' _ O) in Hb by (rewrite length_seq; lia).
    rewrite seq_nth in Ha, Hb by lia.
    cbn [option_map] in Ha, Hb. injection Ha as <-. injection Hb as <-. lia.
  - rewrite Hages. cbn [seq map hd_error]. f_equal. lia.
  - exists (map (fun i => currentAge m + Z.of_nat i)
              (seq 0 (Z.to_nat (yearsToRetirement m)))).
    rewrite Hages, seq_S, map_app. cbn [map]. do 2 f_equal.
    unfold yearsToRetirement in *. lia.
Qed.

(** C5: with a horizon [Y >= 1] the last two points of the trajectory carry
    the same [amount], and [finalAmount] is the [amount] of the last point. *)
Theorem terminal_duplication inputs name color mods :
  let m := spread inputs mods in
  let r := calculateScenario inputs name color mods in
  1 <= yearsToRetirement m ->
  exists front p q,
    data r = front ++ [p; q]
    /\ amount p = amount q
    /\ finalAmount r = amount q.
Proof.
  intros m r HY.
  destruct (Z.to_nat (yearsToRetirement m)) as [|n] eqn:En; [lia|].
  exists (map (point_at m) (seq 0 n)), (point_at m n), (point_at m (S n)).
  split; [|split].
  - subst r. rewrite calculateScenario_data. fold m.
    replace (Z.to_nat (yearsToRetirement m + 1)) with (S (S n)) by lia.
    now rewrite !seq_S, !map_app, <- app_assoc.
  - rewrite !amount_point_at, En. f_equal. lia.
  - subst r. rewrite calculateScenario_finalAmount. fold m.
    rewrite amount_point_at, En. f_equal. lia.
Qed.

(** [finalAmount] is the [amount] of the last point whenever there is a
    point at all. *)
Lemma finalAmount_last inputs name color mods :
  let m := spread inputs mods in
  let r := calculateScenario inputs name color mods in
  0 <= yearsToRetirement m ->
  exists front q, data r = front ++ [q] /\ finalAmount r = amount q.
Proof.
  intros m r HY.
  exists (map (point_at m) (seq 0 (Z.to_nat (yearsToRetirement m)))),
         (point_at m (Z.to_nat (yearsToRetirement m))).
  split.
  - subst r. rewrite calculateScenario_data. fold m.
    replace (Z.to_nat (yearsToRetirement m + 1))
      with (S (Z.to_nat (yearsToRetirement m))) by lia.
    now rewrite seq_S, map_app.
  - subst r. rewrite calculateScenario_finalAmount. fold m.
    rewrite amount_point_at. f_equal. lia.
Qed.

(** Every point is discounted by its own offset; where [Math.pow(x, 0)] is
    [1] and dividing by [1] changes nothing, the point at [currentAge] is
    not discounted. *)
Lemma realValue_of_point inputs name color mods (p : DataPoint num) :
  let m := spread inputs mods in
  In p (data (calculateScenario inputs name color mods)) ->
  realValue p
  = div (amount p)
      (pow (add (lit 1) (div (inflationRate m) (lit 100))) (year p - currentAge m)).
Proof.
  intros m Hp. apply data_In in Hp. destruct Hp as (i & _ & ->).
  rewrite realValue_point_at, year_point_at.
  do 2 f_equal. subst m. lia.
Qed.

Lemma realValue_at_start inputs name color mods (p : DataPoint num) :
  let m := spread inputs mods in
  (forall x : num, pow x 0 = lit 1) ->
  (forall a : num, div a (lit 1) = a) ->
  In p (data (calculateScenario inputs name color mods)) ->
  year p = currentAge m -> realValue p = amount p.
Proof.
  intros m Hpow Hdiv Hp Hyear.
  rewrite (realValue_of_point _ _ _ _ _ Hp). fold m.
  rewrite Hyear, Z.sub_diag, Hpow. apply Hdiv.
Qed.

(** Two neighbours of the trajectory carry the balances after [j] and after
    [k] years of growth, [j <= k]. *)
Lemma consecutive_amounts inputs name color mods
  (front back : list (DataPoint num)) (p q : DataPoint num) :
  let m := spread inputs mods in
  data (calculateScenario inputs name color mods) = front ++ p :: q :: back ->
  exists j k : nat,
    (j <= k)%nat /\ amount p = balance_after m j /\ amount q = balance_after m k.
Proof.
  intros m Hdata.
  set (r := calculateScenario inputs name color mods) in *.
  assert (Hlen : List.length (data r) = Z.to_nat (yearsToRetirement m + 1)).
  { subst r. rewrite calculateScenario_data. now rewrite length_map, length_seq. }
  assert (Hfront : (S (List.length front) < List.length (data r))%nat).
  { rewrite Hdata, length_app. cbn [List.length]. lia. }
  assert (Hp : nth_error (data r) (List.length front) = Some p).
  { rewrite Hdata, nth_error_app2 by lia. now rewrite Nat.sub_diag. }
  assert (Hq : nth_error (data r) (S (List.length front)) = Some q).
  { rewrite Hdata, nth_error_app2 by lia.
    now replace (S (List.length front) - List.length front)%nat with 1%nat by lia. }
  subst r. rewrite data_nth in Hp, Hq by (fold m; lia).
  injection Hp as <-. injection Hq as <-.
  exists (Nat.min (S (List.length front)) (Z.to_nat (yearsToRetirement m))),
         (Nat.min (S (S (List.length front))) (Z.to_nat (yearsToRetirement m))).
  rewrite !amount_point_at. repeat split. lia.
Qed.

(** C7: [monthlyIncome] is [finalAmount * 0.04 / 12] divided by
    [Math.pow(1 + inflationRate / 100, yearsToRetirement)], for every input;
    [finalAmount] is the balance the loop leaves, twelve monthly steps for
    each year of a horizon that is not negative, [currentSavings] otherwise. *)
Theorem sustainable_income_formula inputs name color mods :
  let m := spread inputs mods in
  let r := calculateScenario inputs name color mods in
  let monthlyRate := div (div (expectedReturn m) (lit 100)) (lit 12) in
  let month := fun amt => add (mul amt (add (lit 1) monthlyRate)) (monthlyContribution m) in
  monthlyIncome r
  = div (div (mul (finalAmount r) lit_0_04) (lit 12))
      (pow (add (lit 1) (div (inflationRate m) (lit 100))) (yearsToRetirement m))
  /\ finalAmount r
     = Nat.iter (12 * Z.to_nat (yearsToRetirement m)) month (currentSavings m).
Proof.
  intros m r monthlyRate month. split.
  - reflexivity.
  - subst r. rewrite calculateScenario_finalAmount. reflexivity.
Qed.

(** [monthlyIncome] is the discounted share of [finalAmount]. *)
Lemma sustainable_income_lemma inputs name color mods :
  monthlyIncome (calculateScenario inputs name color mods)
  = div (div (mul (finalAmount (calculateScenario inputs name color mods)) lit_0_04)
           (lit 12))
      (pow (inflation_base (spread inputs mods))
         (yearsToRetirement (spread inputs mods))).
Proof. reflexivity. Qed.

(** [yearsOfIncome] is one division of [finalAmount], whatever the inputs:
    the source has no branch on [retirementExpenses]. *)
Lemma yearsOfIncome_formula inputs name color mods :
  let m := spread inputs mods in
  let r := calculateScenario inputs name color mods in
  yearsOfIncome r = div (finalAmount r) (mul (retirementExpenses m) (lit 12)).
Proof. reflexivity. Qed.

End Engine_facts.

(** ** Rounding on binary64

    What the claims need of the arithmetic of [float]: rounding to nearest
    never takes a value below a representable number it was above, nor
    above a power of two it was below. *)

Module Binary64Facts.

Import Binary64.

Lemma fexp_fexp64 (e : Z) : SpecFloat.fexp prec emax e = fexp64 e.
Proof. reflexivity. Qed.

(** Number of binary digits. *)
Lemma digits2_pos_bounds (p : positive) :
  2 ^ (Zpos (digits2_pos p) - 1) <= Zpos p < 2 ^ Zpos (digits2_pos p).
Proof.
  induction p as [p IH | p IH |]; cbn [digits2_pos].
  - rewrite Pos2Z.inj_succ, Z.pow_succ_r by lia.
    replace (Z.succ (Zpos (digits2_pos p)) - 1)
      with (Z.succ (Zpos (digits2_pos p) - 1)) by lia.
    rewrite Z.pow_succ_r by lia. lia.
  - rewrite Pos2Z.inj_succ, Z.pow_succ_r by lia.
    replace (Z.succ (Zpos (digits2_pos p)) - 1)
      with (Z.succ (Zpos (digits2_pos p) - 1)) by lia.
    rewrite Z.pow_succ_r by lia. lia.
  - cbn. lia.
Qed.

Lemma Zdigits2_bounds (m : Z) :
  0 < m -> 2 ^ (Zdigits2 m - 1) <= m < 2 ^ Zdigits2 m.
Proof.
  destruct m as [|p|p]; try lia. intros _. apply digits2_pos_bounds.
Qed.

Lemma Zdigits2_pos (m : Z) : 0 < m -> 0 < Zdigits2 m.
Proof. destruct m; cbn; lia. Qed.

(** Dropping low bits. *)
Lemma shr_m_shr_1 (mrs : shr_record) :
  0 <= shr_m mrs -> shr_m (shr_1 mrs) = shr_m mrs / 2.
Proof.
  destruct mrs as [m r s]. cbn [shr_m]. intros Hm.
  destruct m as [|[p|p|]|p]; cbn [shr_1 shr_m]; try lia; try reflexivity.
  - apply Z.div_unique with (r := 1); lia.
  - apply Z.div_unique with (r := 0); lia.
Qed.

Lemma shr_m_iter (n : positive) :
  forall mrs : shr_record,
    0 <= shr_m mrs ->
    shr_m (iter_pos shr_1 n mrs) = shr_m mrs / 2 ^ Zpos n.
Proof.
  assert (Hnn : forall k mrs, 0 <= shr_m mrs ->
            (forall mrs', 0 <= shr_m mrs' ->
                shr_m (iter_pos shr_1 k mrs') = shr_m mrs' / 2 ^ Zpos k) ->
            0 <= shr_m (iter_pos shr_1 k mrs)).
  { intros k mrs H IH. rewrite IH by assumption. apply Z.div_pos; lia. }
  induction n as [n IH | n IH |]; intros mrs Hm; cbn [iter_pos].
  - assert (H1 : 0 <= shr_m (shr_1 mrs))
      by (rewrite shr_m_shr_1 by assumption; apply Z.div_pos; lia).
    rewrite IH, IH, shr_m_shr_1 by auto.
    rewrite !Z.div_div by lia. f_equal.
    rewrite (Pos2Z.inj_xI n).
    replace (2 * Z.pos n + 1) with (Z.pos n + Z.pos n + 1) by lia.
    rewrite !Z.pow_add_r by lia. change (2 ^ 1) with 2. ring.
  - rewrite IH, IH by auto.
    rewrite Z.div_div by lia. f_equal.
    rewrite (Pos2Z.inj_xO n).
    replace (2 * Z.pos n) with (Z.pos n + Z.pos n) by lia.
    now rewrite Z.pow_add_r by lia.
  - now rewrite shr_m_shr_1.
Qed.

Lemma shift_e_ge (m e : Z) : e <= shift_e m e.
Proof. unfold shift_e. lia. Qed.

Lemma shift_e_emin (m e : Z) : -1074 <= shift_e m e.
Proof. unfold shift_e, fexp64. lia. Qed.

Lemma shift_m_nonneg (m e : Z) : 0 <= m -> 0 <= shift_m m e.
Proof.
  intros Hm. unfold shift_m. apply Z.div_pos; [exact Hm|].
  apply Z.pow_pos_nonneg; [lia|]. pose proof (shift_e_ge m e). lia.
Qed.

Lemma shr_fexp_spec (m e : Z) (l : location) :
  0 <= m ->
  shr_m (fst (shr_fexp prec emax m e l)) = shift_m m e
  /\ snd (shr_fexp prec emax m e l) = shift_e m e.
Proof.
  intros Hm. unfold shr_fexp, shift_m, shift_e. rewrite fexp_fexp64.
  assert (Hrec : shr_m (shr_record_of_loc m l) = m)
    by (destruct l as [|[]]; reflexivity).
  destruct (fexp64 (Zdigits2 m + e) - e) as [|n|n] eqn:En; cbn [shr fst snd].
  - rewrite Hrec. replace (Z.max e (fexp64 (Zdigits2 m + e))) with e by lia.
    rewrite Z.sub_diag, Z.pow_0_r, Z.div_1_r. auto.
  - rewrite shr_m_iter by lia. rewrite Hrec.
    replace (Z.max e (fexp64 (Zdigits2 m + e))) with (e + Zpos n) by lia.
    split; [f_equal; f_equal; lia | reflexivity].
  - rewrite Hrec. replace (Z.max e (fexp64 (Zdigits2 m + e))) with e by lia.
    rewrite Z.sub_diag, Z.pow_0_r, Z.div_1_r. auto.
Qed.

Lemma round_nearest_even_bounds (m : Z) (l : location) :
  m <= round_nearest_even m l <= m + 1.
Proof.
  destruct l as [|[]]; cbn [round_nearest_even]; try lia.
  destruct (Z.even m); lia.
Qed.

Lemma binary_round_aux_shape (sx : bool) (m e : Z) (l : location) :
  0 <= m ->
  exists m2,
    shift_m m e <= m2 <= shift_m m e + 1
    /\ binary_round_aux prec emax sx m e l
       = finish sx (shift_m m2 (shift_e m e)) (shift_e m2 (shift_e m e)).
Proof.
  intros Hm. unfold binary_round_aux.
  destruct (shr_fexp_spec m e l Hm) as [H1 H2].
  destruct (shr_fexp prec emax m e l) as [mrs1 e1]. cbn [fst snd] in H1, H2.
  set (m2 := round_nearest_even (shr_m mrs1) (loc_of_shr_record mrs1)).
  assert (Hm1 : 0 <= shift_m m e) by now apply shift_m_nonneg.
  pose proof (round_nearest_even_bounds (shr_m mrs1) (loc_of_shr_record mrs1)) as Hb.
  fold m2 in Hb. rewrite H1 in Hb.
  destruct (shr_fexp_spec m2 e1 loc_Exact ltac:(lia)) as [H3 H4].
  destruct (shr_fexp prec emax m2 e1 loc_Exact) as [mrs2 e2]. cbn [fst snd] in H3, H4.
  exists m2. split; [exact Hb|]. rewrite H3, H4, H2. reflexivity.
Qed.

(** Powers of two. *)
Lemma pow2_pos (a : Z) : 0 <= a -> 0 < 2 ^ a.
Proof. intros. apply Z.pow_pos_nonneg; lia. Qed.

Lemma pow2_le (a b : Z) : 0 <= a <= b -> 2 ^ a <= 2 ^ b.
Proof. intros. apply Z.pow_le_mono_r; lia. Qed.

Lemma pow2_lt_inv (a b : Z) : 0 <= a -> 0 <= b -> 2 ^ a < 2 ^ b -> a < b.
Proof. intros Ha Hb H. apply (Z.pow_lt_mono_r_iff 2); lia. Qed.

Lemma pow2_le_inv (a b : Z) : 0 <= a -> 0 <= b -> 2 ^ a <= 2 ^ b -> a <= b.
Proof. intros Ha Hb H. apply (Z.pow_le_mono_r_iff 2); lia. Qed.

Lemma pow2_shift (a n : Z) : 0 <= a -> 0 <= n -> 2 ^ (a + n) = 2 ^ a * 2 ^ n.
Proof. intros. apply Z.pow_add_r; lia. Qed.

Lemma pw_pos (e : Z) : -2148 <= e -> 0 < pw e.
Proof. intros. apply pow2_pos. lia. Qed.

Lemma pw_shift (e n : Z) : -2148 <= e -> 0 <= n -> pw (e + n) = pw e * 2 ^ n.
Proof.
  intros. unfold pw. replace (e + n + 2148) with (e + 2148 + n) by lia.
  apply pow2_shift; lia.
Qed.

Lemma shift_e_split (m e : Z) :
  -2148 <= e -> pw (shift_e m e) = pw e * 2 ^ (shift_e m e - e).
Proof.
  intros He. rewrite <- pw_shift by (pose proof (shift_e_ge m e); lia).
  f_equal. lia.
Qed.

(** Dropping bits never increases the value. *)
Lemma shift_floor (m e : Z) :
  0 <= m -> -2148 <= e -> shift_m m e * pw (shift_e m e) <= m * pw e.
Proof.
  intros Hm He. rewrite shift_e_split by assumption. unfold shift_m.
  pose proof (shift_e_ge m e) as Hge.
  pose proof (pow2_pos (shift_e m e - e) ltac:(lia)) as Hp.
  pose proof (pw_pos e He) as Hq.
  pose proof (Z.mul_div_le m (2 ^ (shift_e m e - e)) Hp) as Hfl.
  nia.
Qed.

(** A multiple of the new unit below the value stays below the shifted
    value. *)
Lemma shift_keeps_multiple (m e k : Z) :
  0 <= m -> -2148 <= e ->
  k * pw (shift_e m e) <= m * pw e ->
  k * pw (shift_e m e) <= shift_m m e * pw (shift_e m e).
Proof.
  intros Hm He Hk. pose proof (shift_e_ge m e) as Hge.
  pose proof (pow2_pos (shift_e m e - e) ltac:(lia)) as Hp.
  pose proof (pw_pos e He) as Hq.
  pose proof (pw_pos (shift_e m e) ltac:(lia)) as Hq1.
  rewrite shift_e_split in Hk by assumption.
  assert (Hle : k <= shift_m m e).
  { unfold shift_m. apply Z.div_le_lower_bound; [exact Hp|]. nia. }
  nia.
Qed.

(** A canonical number below the value stays below the shifted value:
    it is a multiple of the new unit, or a power of two lies between. *)
Lemma shift_lower (mu : positive) (eu m e : Z) :
  fexp64 (Zpos (digits2_pos mu) + eu) = eu ->
  0 < m -> -2148 <= e ->
  Zpos mu * pw eu <= m * pw e ->
  Zpos mu * pw eu <= shift_m m e * pw (shift_e m e).
Proof.
  intros Hcan Hm He Hle.
  pose proof (shift_e_ge m e) as Hge.
  destruct (Z.eq_dec (shift_e m e) e) as [Heq | Hne].
  { unfold shift_m. rewrite Heq, Z.sub_diag, Z.pow_0_r, Z.div_1_r. exact Hle. }
  assert (He1 : shift_e m e = fexp64 (Zdigits2 m + e)) by (unfold shift_e in *; lia).
  pose proof (digits2_pos_bounds mu) as Hdu.
  pose proof (Zdigits2_bounds m Hm) as Hdm.
  pose proof (Zdigits2_pos m Hm) as Hdp.
  assert (Hdu1 : 1 <= Zpos (digits2_pos mu)) by lia.
  remember (Zpos (digits2_pos mu)) as du eqn:Edu.
  remember (Zdigits2 m) as dm eqn:Edm.
  assert (Heu : -1074 <= eu) by (unfold fexp64 in Hcan; lia).
  pose proof (pw_pos eu ltac:(lia)) as Hpu.
  pose proof (pw_pos e He) as Hpe.
  (* the value of u has [du + eu] digits, the value of m has [dm + e] *)
  assert (Hlow : 2 ^ (du - 1) * pw eu <= Zpos mu * pw eu) by nia.
  assert (Hupp : m * pw e < 2 ^ dm * pw e) by nia.
  assert (Hord : du + eu <= dm + e).
  { assert (H : 2 ^ (du - 1 + (eu + 2148)) < 2 ^ (dm + (e + 2148))).
    { rewrite (pow2_shift (du - 1)), (pow2_shift dm) by lia.
      fold (pw eu) (pw e). lia. }
    apply pow2_lt_inv in H; lia. }
  destruct (Z.eq_dec (du + eu) (dm + e)) as [Hsame | Hdiff].
  - (* same binade: u is a multiple of the new unit *)
    assert (Heu1 : eu = shift_e m e) by (rewrite He1, <- Hsame; auto).
    rewrite Heu1 in *. now apply shift_keeps_multiple; try lia.
  - (* lower binade: the power of two below m is a multiple *)
    assert (Hmid1 : Zpos mu * pw eu <= 2 ^ (dm - 1) * pw e).
    { assert (H : 2 ^ (du + (eu + 2148)) <= 2 ^ (dm - 1 + (e + 2148)))
        by (apply pow2_le; lia).
      rewrite (pow2_shift du), (pow2_shift (dm - 1)) in H by lia.
      fold (pw eu) (pw e) in H. nia. }
    assert (Hk : 0 <= dm + e - 1 - shift_e m e)
      by (rewrite He1; unfold fexp64; lia).
    assert (Hmid : 2 ^ (dm - 1) * pw e
                   = 2 ^ (dm + e - 1 - shift_e m e) * pw (shift_e m e)).
    { rewrite shift_e_split by assumption.
      replace (dm - 1) with ((dm + e - 1 - shift_e m e) + (shift_e m e - e)) at 1 by lia.
      rewrite pow2_shift by lia. ring. }
    apply Z.le_trans with (1 := Hmid1). rewrite Hmid.
    apply shift_keeps_multiple; try lia. rewrite <- Hmid. nia.
Qed.

(** ** Values of the numbers that are not negative *)

Lemma bounded_inv (m : positive) (e : Z) :
  SpecFloat.bounded prec emax m e = true ->
  fexp64 (Zpos (digits2_pos m) + e) = e /\ -1074 <= e <= 971
  /\ Zpos (digits2_pos m) <= 53
  /\ (-1074 < e -> Zpos (digits2_pos m) = 53).
Proof.
  unfold bounded, canonical_mantissa. rewrite fexp_fexp64. intros H.
  apply andb_prop in H. destruct H as [H1 H2].
  apply Z.eqb_eq in H1. apply Z.leb_le in H2.
  change (emax - prec) with 971 in H2. unfold fexp64 in *. lia.
Qed.

Lemma unit_val_pos : 0 < unit_val.
Proof. apply pow2_pos. lia. Qed.

Lemma pow2_unit (k : Z) : 0 <= k -> 2 ^ (k + 1074) = 2 ^ k * unit_val.
Proof. intros Hk. apply pow2_shift; lia. Qed.

Lemma pow2_below_top (k : Z) : 0 <= k <= 2100 -> 2 ^ k <= top.
Proof. intros Hk. apply pow2_le. lia. Qed.

Lemma top_pos : 0 < top.
Proof. apply pow2_pos. lia. Qed.

Lemma pw_val (m e : Z) : -1074 <= e -> m * pw e = m * 2 ^ (e + 1074) * unit_val.
Proof.
  intros He. unfold pw. replace (e + 2148) with (e + 1074 + 1074) by lia.
  rewrite (pow2_unit (e + 1074)) by lia. ring.
Qed.

Lemma pw_unit (K : Z) : -1074 <= K -> 2 ^ (K + 2148) = 2 ^ (K + 1074) * unit_val.
Proof.
  intros HK. replace (K + 2148) with (K + 1074 + 1074) by lia.
  apply pow2_unit. lia.
Qed.

Lemma val_finite_bounds (sx : bool) (m : positive) (e : Z) :
  valid (S754_finite sx m e) -> 0 < val (S754_finite sx m e) < top.
Proof.
  intros Hv. apply bounded_inv in Hv. destruct Hv as (_ & He & Hd & _).
  pose proof (digits2_pos_bounds m) as Hm. cbn [val].
  pose proof (pow2_pos (e + 1074) ltac:(lia)) as Hp.
  split; [nia|].
  assert (H53 : Zpos m < 2 ^ 53).
  { apply Z.lt_le_trans with (1 := proj2 Hm). apply pow2_le. lia. }
  apply Z.lt_le_trans with (2 ^ 53 * 2 ^ (e + 1074)).
  - apply Z.mul_lt_mono_pos_r; assumption.
  - rewrite <- pow2_shift by lia. apply pow2_below_top. lia.
Qed.

Lemma val_nonneg (s : spec_float) : valid s -> 0 <= val s.
Proof.
  pose proof top_pos.
  destruct s as [sx|sx| |sx m e]; intros Hv; cbn [val]; lia.
Qed.

Lemma val_le_inf (s : spec_float) : valid s -> val s <= top.
Proof.
  pose proof top_pos as H0.
  destruct s as [sx|sx| |sx m e]; intros Hv; cbn [val]; try lia.
  pose proof (val_finite_bounds sx m e Hv) as Hb. cbn [val] in Hb. lia.
Qed.

(** Rounding keeps a value above every representable number below it. *)
Lemma finish_lower (A mz ez : Z) :
  0 < A -> -1074 <= ez -> A < top ->
  A * unit_val <= mz * pw ez ->
  nonneg (finish false mz ez) /\ A <= val (finish false mz ez).
Proof.
  intros HA Hez Hfin Hle. rewrite pw_val in Hle by assumption.
  pose proof unit_val_pos as Hp.
  pose proof (pow2_pos (ez + 1074) ltac:(lia)) as Hq.
  destruct mz as [|p|p]; [nia | | nia].
  cbn [finish]. destruct (ez <=? 971); cbn [nonneg val].
  - split; [reflexivity | nia].
  - split; [reflexivity | lia].
Qed.

Lemma round_lower (mu : positive) (eu m e : Z) (l : location) :
  SpecFloat.bounded prec emax mu eu = true ->
  0 <= m -> -2148 <= e ->
  Zpos mu * pw eu <= m * pw e ->
  nonneg (binary_round_aux prec emax false m e l)
  /\ Zpos mu * 2 ^ (eu + 1074) <= val (binary_round_aux prec emax false m e l).
Proof.
  intros Hb Hm He Hle.
  pose proof (val_finite_bounds false mu eu Hb) as Hval. cbn [val] in Hval.
  destruct (bounded_inv mu eu Hb) as (Hcan & Heu & _).
  pose proof (pw_pos eu ltac:(lia)) as Hpu.
  pose proof (pw_pos e He) as Hpe.
  assert (Hm0 : 0 < m) by nia.
  destruct (binary_round_aux_shape false m e l Hm) as (m2 & Hm2 & ->).
  pose proof (shift_lower mu eu m e Hcan Hm0 He Hle) as H1.
  pose proof (shift_e_ge m e) as Hge1.
  pose proof (pw_pos (shift_e m e) ltac:(lia)) as Hp1.
  assert (H2 : Zpos mu * pw eu <= m2 * pw (shift_e m e)) by nia.
  assert (Hm20 : 0 < m2) by nia.
  pose proof (shift_lower mu eu m2 (shift_e m e) Hcan Hm20 ltac:(lia) H2) as H3.
  apply finish_lower; try lia.
  - apply shift_e_emin.
  - rewrite <- pw_val by lia. exact H3.
Qed.

(** Rounding keeps a value below every power of two above it. *)
Lemma Zdigits2_le (m k : Z) : 0 < m -> 0 <= k -> m <= 2 ^ k -> Zdigits2 m <= k + 1.
Proof.
  intros Hm Hk Hle. pose proof (Zdigits2_bounds m Hm) as Hd.
  pose proof (Zdigits2_pos m Hm) as Hp.
  assert (H : 2 ^ (Zdigits2 m - 1) <= 2 ^ k) by lia.
  apply pow2_le_inv in H; lia.
Qed.

Lemma shift_e_upper (m e K : Z) :
  0 <= m -> -2148 <= e -> e <= K -> -1074 <= K ->
  m * pw e <= 2 ^ (K + 2148) ->
  shift_e m e <= Z.max e (Z.max (K - 52) (-1074)).
Proof.
  intros Hm He HeK HK Hlt. unfold shift_e, fexp64.
  destruct (Z.eq_dec m 0) as [-> | Hm0]; [cbn [Zdigits2]; lia|].
  pose proof (Zdigits2_bounds m ltac:(lia)) as Hd.
  pose proof (Zdigits2_pos m ltac:(lia)) as Hp.
  pose proof (pw_pos e He) as Hpe.
  assert (H : 2 ^ (Zdigits2 m - 1 + (e + 2148)) <= 2 ^ (K + 2148)).
  { rewrite (pow2_shift (Zdigits2 m - 1)) by lia. fold (pw e). nia. }
  apply pow2_le_inv in H; lia.
Qed.

Lemma finish_upper (mz ez K : Z) :
  0 <= mz -> -1074 <= ez <= 971 -> -1074 <= K ->
  mz * pw ez <= 2 ^ (K + 2148) ->
  nonneg (finish false mz ez) /\ val (finish false mz ez) <= 2 ^ (K + 1074).
Proof.
  intros Hm Hez HK Hle. rewrite pw_val in Hle by lia.
  rewrite (pw_unit K) in Hle by lia.
  pose proof unit_val_pos as Hp.
  pose proof (pow2_pos (K + 1074) ltac:(lia)) as Hq.
  destruct mz as [|p|p]; [| | lia]; cbn [finish nonneg val].
  - split; [exact I | lia].
  - replace (ez <=? 971) with true by (symmetry; apply Z.leb_le; lia).
    cbn [nonneg val]. split; [reflexivity | nia].
Qed.

Lemma round_upper (m e K : Z) (l : location) :
  0 <= m -> -2148 <= e -> e <= 971 -> e <= K -> -1074 <= K <= 1023 ->
  m * pw e < 2 ^ (K + 2148) ->
  nonneg (binary_round_aux prec emax false m e l)
  /\ val (binary_round_aux prec emax false m e l) <= 2 ^ (K + 1074).
Proof.
  intros Hm He He971 HeK HK Hlt.
  destruct (binary_round_aux_shape false m e l Hm) as (m2 & Hm2 & ->).
  pose proof (shift_e_ge m e) as Hge1.
  pose proof (shift_m_nonneg m e Hm) as Hm1.
  assert (He1 : shift_e m e <= Z.max e (Z.max (K - 52) (-1074)))
    by (apply shift_e_upper; lia).
  set (e1 := shift_e m e) in *.
  pose proof (pw_pos e1 ltac:(lia)) as Hp1.
  pose proof (shift_floor m e Hm He) as Hfl1. fold e1 in Hfl1.
  assert (Hsplit : 2 ^ (K + 2148) = 2 ^ (K - e1) * pw e1).
  { unfold pw. rewrite <- pow2_shift by lia. f_equal. lia. }
  assert (Hm2le : m2 * pw e1 <= 2 ^ (K + 2148)).
  { rewrite Hsplit in *. assert (shift_m m e < 2 ^ (K - e1)) by nia. nia. }
  assert (Hm20 : 0 <= m2) by lia.
  assert (He3 : shift_e m2 e1 <= Z.max e1 (Z.max (K - 52) (-1074))).
  { apply shift_e_upper; lia. }
  pose proof (shift_floor m2 e1 Hm20 ltac:(lia)) as Hfl2.
  apply finish_upper; try lia.
  - now apply shift_m_nonneg.
  - pose proof (shift_e_emin m2 e1). lia.
Qed.

(** The order of the numbers that are not negative is the order of their
    values. *)
Lemma finite_exp_lt (m1 m2 : positive) (e1 e2 : Z) :
  SpecFloat.bounded prec emax m1 e1 = true ->
  SpecFloat.bounded prec emax m2 e2 = true ->
  e1 < e2 ->
  Zpos m1 * 2 ^ (e1 + 1074) < Zpos m2 * 2 ^ (e2 + 1074).
Proof.
  intros H1 H2 Hlt.
  destruct (bounded_inv m1 e1 H1) as (_ & He1 & Hd1 & _).
  destruct (bounded_inv m2 e2 H2) as (_ & He2 & _ & Hd2).
  pose proof (digits2_pos_bounds m1) as Hm1.
  pose proof (digits2_pos_bounds m2) as Hm2.
  rewrite Hd2 in Hm2 by lia.
  assert (H53 : Zpos m1 < 2 ^ 53).
  { apply Z.lt_le_trans with (1 := proj2 Hm1). apply pow2_le. lia. }
  pose proof (pow2_pos (e1 + 1074) ltac:(lia)) as Hp.
  assert (Hstep : 2 * 2 ^ (e1 + 1074) <= 2 ^ (e2 + 1074)).
  { rewrite <- Z.pow_succ_r by lia. apply pow2_le. lia. }
  change (2 ^ (53 - 1)) with (2 ^ 52) in Hm2.
  change (2 ^ 53) with (2 * 2 ^ 52) in H53. nia.
Qed.

Lemma SFleb_val (s t : spec_float) :
  valid s -> valid t -> nonneg s -> nonneg t ->
  (SFleb s t = true <-> val s <= val t).
Proof.
  intros Hs Ht Hns Hnt.
  pose proof (val_le_inf s Hs) as His. pose proof (val_le_inf t Ht) as Hit.
  assert (H98 : 2 ^ 2098 < top) by (apply Z.pow_lt_mono_r; lia).
  destruct s as [ss|ss| |ss ms es]; destruct t as [st|st| |st mt et];
    cbn [nonneg] in Hns, Hnt; try contradiction; subst;
    try (pose proof (val_finite_bounds _ _ _ Hs) as Hfs);
    try (pose proof (val_finite_bounds _ _ _ Ht) as Hft);
    unfold SFleb; cbn [SFcompare val] in *;
    try (split; [intros _; lia | reflexivity]);
    try (split; [discriminate | lia]).
  destruct (Z.compare_spec es et) as [Heq | Hlt | Hgt].
  - subst et. pose proof (pow2_pos (es + 1074)) as Hp.
    destruct (bounded_inv ms es Hs) as (_ & He & _).
    specialize (Hp ltac:(lia)).
    change (Pos.compare_cont Eq ms mt) with (Pos.compare ms mt).
    destruct (Pos.compare_spec ms mt) as [E | L | G].
    + subst. split; [lia | reflexivity].
    + split; [intros _; nia | reflexivity].
    + split; [discriminate | nia].
  - pose proof (finite_exp_lt ms mt es et Hs Ht Hlt). split; [lia | reflexivity].
  - pose proof (finite_exp_lt mt ms et es Ht Hs Hgt). split; [discriminate | lia].
Qed.

(** ** The operations *)

Lemma shl_align_spec (mx : positive) (ex ex' : Z) :
  snd (shl_align mx ex ex') = Z.min ex ex'
  /\ Zpos (fst (shl_align mx ex ex')) = Zpos mx * 2 ^ (ex - Z.min ex ex').
Proof.
  unfold shl_align. destruct (ex' - ex) as [|d|d] eqn:Ed; cbn [fst snd].
  - replace (Z.min ex ex') with ex by lia. rewrite Z.sub_diag. split; lia.
  - replace (Z.min ex ex') with ex by lia. rewrite Z.sub_diag. split; lia.
  - replace (Z.min ex ex') with ex' by lia. split; [reflexivity|].
    replace (ex - ex') with (Zpos d) by lia.
    clear Ed. induction d as [|d IH] using Pos.peano_ind.
    + cbn. lia.
    + rewrite Pos.iter_succ, (Pos2Z.inj_xO (Pos.iter xO mx d)), IH.
      rewrite Pos2Z.inj_succ, Z.pow_succ_r by lia. ring.
Qed.

Lemma binary_round_value (p : positive) (e : Z) :
  -1074 <= e ->
  exists mz ez,
    binary_round prec emax false p e
    = binary_round_aux prec emax false (Zpos mz) ez loc_Exact
    /\ -1074 <= ez <= e
    /\ Zpos mz * pw ez = Zpos p * pw e.
Proof.
  intros He. unfold binary_round. rewrite fexp_fexp64.
  destruct (shl_align_spec p e (fexp64 (Zpos (digits2_pos p) + e))) as [H1 H2].
  destruct (shl_align p e (fexp64 (Zpos (digits2_pos p) + e))) as [mz ez].
  cbn [fst snd] in H1, H2. exists mz, ez.
  assert (Hez : -1074 <= ez <= e) by (unfold fexp64 in H1; lia).
  split; [reflexivity|]. split; [exact Hez|].
  rewrite H2, <- H1. rewrite <- Z.mul_assoc. f_equal.
  rewrite Z.mul_comm, <- pw_shift by lia. f_equal. lia.
Qed.

Lemma SFmul_ge (a f : spec_float) :
  valid a -> valid f -> nonneg a -> nonneg f ->
  unit_val <= val f < top ->
  nonneg (SFmul prec emax a f) /\ val a <= val (SFmul prec emax a f).
Proof.
  intros Ha Hf Hna Hnf Hone.
  pose proof unit_val_pos as H0.
  destruct f as [sf|sf| |sf mf ef]; cbn [nonneg val] in Hnf, Hone; try lia.
  subst sf.
  destruct a as [sa|sa| |sa ma ea]; cbn [nonneg] in Hna; try contradiction.
  - cbn [SFmul nonneg val]. split; [exact I | lia].
  - subst sa. cbn [SFmul nonneg val xorb]. split; [reflexivity | lia].
  - subst sa. cbn [SFmul xorb val].
    destruct (bounded_inv ma ea Ha) as (_ & Hea & _).
    destruct (bounded_inv mf ef Hf) as (_ & Hef & _).
    apply round_lower; try assumption; try lia.
    rewrite Pos2Z.inj_mul. unfold pw.
    replace (ea + 2148) with (ea + 1074 + 1074) by lia.
    replace (ea + ef + 2148) with (ea + 1074 + (ef + 1074)) by lia.
    rewrite (pow2_unit (ea + 1074)), (pow2_shift (ea + 1074) (ef + 1074)) by lia.
    pose proof (pow2_pos (ea + 1074) ltac:(lia)). nia.
Qed.

Lemma SFadd_finite (mx my : positive) (ex ey : Z) :
  -1074 <= ex -> -1074 <= ey ->
  exists p,
    SFadd prec emax (S754_finite false mx ex) (S754_finite false my ey)
    = binary_round prec emax false p (Z.min ex ey)
    /\ Zpos p * pw (Z.min ex ey) = Zpos mx * pw ex + Zpos my * pw ey.
Proof.
  intros Hex Hey. cbn [SFadd cond_Zopp].
  destruct (shl_align_spec mx ex (Z.min ex ey)) as [_ Hx].
  destruct (shl_align_spec my ey (Z.min ex ey)) as [_ Hy].
  replace (Z.min ex (Z.min ex ey)) with (Z.min ex ey) in Hx by lia.
  replace (Z.min ey (Z.min ex ey)) with (Z.min ex ey) in Hy by lia.
  set (a := fst (shl_align mx ex (Z.min ex ey))) in *.
  set (b := fst (shl_align my ey (Z.min ex ey))) in *.
  exists (a + b)%positive. split; [reflexivity|].
  rewrite Pos2Z.inj_add, Hx, Hy, Z.mul_add_distr_r, <- !Z.mul_assoc.
  f_equal; f_equal; rewrite Z.mul_comm, <- pw_shift by lia; f_equal; lia.
Qed.

Lemma SFadd_ge (x c : spec_float) :
  valid x -> valid c -> nonneg x -> nonneg c ->
  nonneg (SFadd prec emax x c) /\ val x <= val (SFadd prec emax x c).
Proof.
  intros Hx Hc Hnx Hnc.
  pose proof (val_le_inf x Hx) as Hix. pose proof (val_nonneg c Hc) as Hc0.
  destruct x as [sx|sx| |sx mx ex]; destruct c as [sc|sc| |sc mc ec];
    cbn [nonneg] in Hnx, Hnc; try contradiction; subst;
    try (cbn [SFadd nonneg val] in *; split; [first [exact I | reflexivity] | lia]).
  - destruct sx, sc; cbn [SFadd nonneg val]; split; first [exact I | lia].
  - destruct (bounded_inv mx ex Hx) as (_ & Hex & _).
    destruct (bounded_inv mc ec Hc) as (_ & Hec & _).
    destruct (SFadd_finite mx mc ex ec ltac:(lia) ltac:(lia)) as (p & -> & Hp).
    destruct (binary_round_value p (Z.min ex ec) ltac:(lia)) as (mz & ez & -> & Hez & Hv).
    cbn [val]. apply round_lower; try assumption; try lia.
    rewrite Hv, Hp. pose proof (pw_pos ec ltac:(lia)). nia.
Qed.

Lemma SFadd_upper (x c : spec_float) (K : Z) :
  valid x -> valid c -> nonneg x -> nonneg c ->
  -1074 <= K <= 1023 ->
  val x + val c < 2 ^ (K + 1074) ->
  val (SFadd prec emax x c) <= 2 ^ (K + 1074).
Proof.
  intros Hx Hc Hnx Hnc HK Hlt.
  pose proof (val_nonneg x Hx) as Hx0. pose proof (val_nonneg c Hc) as Hc0.
  assert (Hinf : 2 ^ (K + 1074) <= top) by (apply pow2_le; lia).
  destruct x as [sx|sx| |sx mx ex]; destruct c as [sc|sc| |sc mc ec];
    cbn [nonneg] in Hnx, Hnc; try contradiction; subst;
    try (cbn [SFadd val] in *; lia).
  - destruct sx, sc; cbn [SFadd val] in *; lia.
  - destruct (bounded_inv mx ex Hx) as (_ & Hex & _).
    destruct (bounded_inv mc ec Hc) as (_ & Hec & _).
    destruct (SFadd_finite mx mc ex ec ltac:(lia) ltac:(lia)) as (p & -> & Hp).
    destruct (binary_round_value p (Z.min ex ec) ltac:(lia)) as (mz & ez & -> & Hez & Hv).
    cbn [val] in Hlt.
    assert (HexK : ex < K).
    { assert (H : 2 ^ (ex + 1074) < 2 ^ (K + 1074)).
      { pose proof (pow2_pos (ex + 1074) ltac:(lia)).
        pose proof (pow2_pos (ec + 1074) ltac:(lia)). nia. }
      apply pow2_lt_inv in H; lia. }
    apply round_upper; try lia.
    rewrite Hv, Hp, !pw_val by lia.
    rewrite (pw_unit K) by lia.
    pose proof unit_val_pos. nia.
Qed.

Lemma SFdiv_core_spec (mx my : positive) (ex ey : Z) :
  exists q l,
    SFdiv_core_binary prec emax (Zpos mx) ex (Zpos my) ey
    = (q, Z.min (fexp64 (Zpos (digits2_pos mx) + ex - (Zpos (digits2_pos my) + ey)))
            (ex - ey), l)
    /\ 0 <= q
    /\ q * Zpos my
       <= Zpos mx
          * 2 ^ (ex - ey
                 - Z.min (fexp64 (Zpos (digits2_pos mx) + ex
                                  - (Zpos (digits2_pos my) + ey))) (ex - ey)).
Proof.
  unfold SFdiv_core_binary. cbn [Zdigits2]. rewrite fexp_fexp64.
  set (e' := Z.min _ (ex - ey)).
  assert (Hs : 0 <= ex - ey - e') by (subst e'; lia).
  assert (Hm' : match ex - ey - e' with
                | 0 => Zpos mx
                | Zpos _ => Z.shiftl (Zpos mx) (ex - ey - e')
                | Zneg _ => 0
                end = Zpos mx * 2 ^ (ex - ey - e')).
  { destruct (ex - ey - e') as [|s|s] eqn:Es; try lia.
    now rewrite Z.shiftl_mul_pow2 by lia. }
  rewrite Hm'.
  pose proof (Z_div_mod (Zpos mx * 2 ^ (ex - ey - e')) (Zpos my) ltac:(lia)) as Hdiv.
  destruct (Z.div_eucl (Zpos mx * 2 ^ (ex - ey - e')) (Zpos my)) as [q r].
  exists q, (new_location (Zpos my) r). split; [reflexivity|].
  pose proof (pow2_pos (ex - ey - e') Hs). split; nia.
Qed.

Lemma SFdiv_upper (x y : spec_float) (K : Z) :
  valid x -> valid y -> nonneg x -> nonneg y ->
  unit_val <= val y < top ->
  -1074 <= K <= 1023 ->
  val x < 2 ^ (K + 1074) ->
  nonneg (SFdiv prec emax x y) /\ val (SFdiv prec emax x y) <= 2 ^ (K + 1074).
Proof.
  intros Hx Hy Hnx Hny Hone HK Hlt.
  pose proof unit_val_pos as H0.
  assert (HK0 : 0 < 2 ^ (K + 1074)) by (apply pow2_pos; lia).
  assert (Hinf : 2 ^ (K + 1074) <= top) by (apply pow2_le; lia).
  destruct y as [sy|sy| |sy my ey]; cbn [nonneg val] in Hny, Hone; try lia.
  subst sy.
  destruct x as [sx|sx| |sx mx ex]; cbn [nonneg val] in Hnx, Hlt; try contradiction.
  - cbn [SFdiv nonneg val]. split; [exact I | lia].
  - lia.
  - subst sx. cbn [SFdiv xorb].
    destruct (bounded_inv mx ex Hx) as (_ & Hex & _).
    destruct (bounded_inv my ey Hy) as (_ & Hey & _).
    pose proof (digits2_pos_bounds mx) as Hdx.
    pose proof (digits2_pos_bounds my) as Hdy.
    destruct (SFdiv_core_spec mx my ex ey) as (q & l & -> & Hq & Hqle).
    remember (Zpos (digits2_pos mx)) as dx eqn:Edx.
    remember (Zpos (digits2_pos my)) as dy eqn:Edy.
    assert (Hdx1 : 1 <= dx) by lia. assert (Hdy1 : 1 <= dy) by lia.
    pose proof (pow2_pos (ex + 1074) ltac:(lia)) as Hpx.
    pose proof (pow2_pos (ey + 1074) ltac:(lia)) as Hpy.
    (* y is at least 1, x is below 2 ^ K *)
    assert (HDy : 1 <= dy + ey).
    { assert (H : 2 ^ 1074 < 2 ^ (dy + (ey + 1074))).
      { change (2 ^ 1074) with unit_val. rewrite (pow2_shift dy) by lia. nia. }
      apply pow2_lt_inv in H; lia. }
    assert (HDx : dx + ex <= K).
    { assert (H : 2 ^ (dx - 1 + (ex + 1074)) < 2 ^ (K + 1074)).
      { rewrite (pow2_shift (dx - 1)) by lia. nia. }
      apply pow2_lt_inv in H; lia. }
    set (e' := Z.min (fexp64 (dx + ex - (dy + ey))) (ex - ey)) in *.
    assert (He' : -2148 <= e' /\ e' <= 971 /\ e' <= K /\ 0 <= ex - ey - e')
      by (subst e'; unfold fexp64; lia).
    pose proof (pw_pos e' ltac:(lia)) as Hpe'.
    assert (Hval : q * pw e' <= Zpos mx * pw ex).
    { assert (H1 : q * pw e' * (Zpos my * 2 ^ (ey + 1074))
                   <= Zpos mx * pw ex * unit_val).
      { assert (E : pw ex * unit_val
                    = 2 ^ (ex - ey - e') * pw e' * 2 ^ (ey + 1074)).
        { unfold pw, unit_val. rewrite <- !pow2_shift by lia. f_equal. lia. }
        replace (Zpos mx * pw ex * unit_val)
          with (Zpos mx * (pw ex * unit_val)) by ring.
        rewrite E.
        replace (q * pw e' * (Zpos my * 2 ^ (ey + 1074)))
          with (q * Zpos my * (pw e' * 2 ^ (ey + 1074))) by ring.
        replace (Zpos mx * (2 ^ (ex - ey - e') * pw e' * 2 ^ (ey + 1074)))
          with (Zpos mx * 2 ^ (ex - ey - e') * (pw e' * 2 ^ (ey + 1074))) by ring.
        apply Z.mul_le_mono_nonneg_r; [|exact Hqle].
        apply Z.mul_nonneg_nonneg; lia. }
      apply Z.mul_le_mono_pos_r with (p := unit_val); [exact H0|].
      apply Z.le_trans with (2 := H1).
      apply Z.mul_le_mono_nonneg_l; [|lia].
      apply Z.mul_nonneg_nonneg; lia. }
    apply round_upper; try lia.
    rewrite (pw_val (Zpos mx) ex) in Hval by lia.
    rewrite (pw_unit K) by lia.
    apply Z.le_lt_trans with (1 := Hval).
    apply Z.mul_lt_mono_pos_r; assumption.
Qed.

(** ** On the primitive numbers *)

Lemma fvalid (x : float) : valid (Prim2SF x).
Proof. apply Prim2SF_valid. Qed.

Lemma leb_zero (x : float) : PrimFloat.leb 0%float x = true <-> fnonneg x.
Proof.
  rewrite FloatAxioms.leb_spec. unfold fnonneg.
  change (Prim2SF 0%float) with (S754_zero false).
  destruct (Prim2SF x) as [s|s| |s m e]; unfold SFleb; cbn [SFcompare nonneg];
    try destruct s; split; intros H; try reflexivity; try discriminate;
    try contradiction; exact I.
Qed.

Lemma leb_fval (x y : float) :
  fnonneg x -> fnonneg y -> (PrimFloat.leb x y = true <-> fval x <= fval y).
Proof.
  intros Hx Hy. rewrite FloatAxioms.leb_spec. apply SFleb_val; auto using fvalid.
Qed.

Lemma mul_ge (a f : float) :
  fnonneg a -> fnonneg f -> unit_val <= fval f < top ->
  fnonneg (PrimFloat.mul a f) /\ fval a <= fval (PrimFloat.mul a f).
Proof.
  intros Ha Hf Hone. unfold fnonneg, fval. rewrite FloatAxioms.mul_spec.
  apply SFmul_ge; auto using fvalid.
Qed.

Lemma add_ge (x c : float) :
  fnonneg x -> fnonneg c ->
  fnonneg (PrimFloat.add x c) /\ fval x <= fval (PrimFloat.add x c).
Proof.
  intros Hx Hc. unfold fnonneg, fval. rewrite FloatAxioms.add_spec.
  apply SFadd_ge; auto using fvalid.
Qed.

Lemma add_upper (x c : float) (K : Z) :
  fnonneg x -> fnonneg c -> -1074 <= K <= 1023 ->
  fval x + fval c < 2 ^ (K + 1074) ->
  fval (PrimFloat.add x c) <= 2 ^ (K + 1074).
Proof.
  intros Hx Hc HK Hlt. unfold fval. rewrite FloatAxioms.add_spec.
  apply SFadd_upper; auto using fvalid.
Qed.

Lemma div_upper (x y : float) (K : Z) :
  fnonneg x -> fnonneg y -> unit_val <= fval y < top ->
  -1074 <= K <= 1023 -> fval x < 2 ^ (K + 1074) ->
  fnonneg (PrimFloat.div x y) /\ fval (PrimFloat.div x y) <= 2 ^ (K + 1074).
Proof.
  intros Hx Hy Hone HK Hlt. unfold fnonneg, fval. rewrite FloatAxioms.div_spec.
  apply SFdiv_upper; auto using fvalid.
Qed.

(** The monthly growth factor [1 + expectedReturn / 100 / 12] of a return
    between 0 and 15 is a finite number, at least 1. *)
Lemma growth_factor (ret : float) :
  PrimFloat.leb 0%float ret = true -> PrimFloat.leb ret 15%float = true ->
  let f := PrimFloat.add 1%float
             (PrimFloat.div (PrimFloat.div ret 100%float) 12%float) in
  fnonneg f /\ unit_val <= fval f < top.
Proof.
  intros H0 H15 f. apply leb_zero in H0.
  assert (N15 : fnonneg 15%float) by (apply leb_zero; reflexivity).
  assert (N100 : fnonneg 100%float) by (apply leb_zero; reflexivity).
  assert (N12 : fnonneg 12%float) by (apply leb_zero; reflexivity).
  assert (N1 : fnonneg 1%float) by (apply leb_zero; reflexivity).
  apply leb_fval in H15; try assumption.
  pose proof unit_val_pos as P74.
  assert (V15 : fval 15%float = 15 * unit_val) by (vm_compute; reflexivity).
  assert (V100 : fval 100%float = 100 * unit_val) by (vm_compute; reflexivity).
  assert (V12 : fval 12%float = 12 * unit_val) by (vm_compute; reflexivity).
  assert (V1 : fval 1%float = unit_val) by (vm_compute; reflexivity).
  assert (Hinf : 2 ^ (26 + 1074) <= top) by (apply pow2_le; lia).
  assert (P : forall k, 0 <= k -> 2 ^ (k + 1074) = 2 ^ k * unit_val)
    by (intros k Hk; apply pow2_shift; lia).
  rewrite (P 26) in Hinf by lia. change (2 ^ 26) with 67108864 in Hinf.
  assert (B100 : unit_val <= fval 100%float < top) by lia.
  assert (B12 : unit_val <= fval 12%float < top) by lia.
  assert (Hret : fval ret < 2 ^ (4 + 1074)).
  { rewrite (P 4) by lia. change (2 ^ 4) with 16. lia. }
  destruct (div_upper ret 100%float 4 H0 N100 B100 ltac:(lia) Hret) as [Nr1 Vr1].
  assert (Hr1 : fval (PrimFloat.div ret 100%float) < 2 ^ (5 + 1074)).
  { rewrite (P 5) by lia. rewrite (P 4) in Vr1 by lia.
    change (2 ^ 5) with 32. change (2 ^ 4) with 16 in Vr1. lia. }
  destruct (div_upper _ 12%float 5 Nr1 N12 B12 ltac:(lia) Hr1) as [Nr Vr].
  destruct (add_ge 1%float _ N1 Nr) as [Nf Vf].
  assert (Hsum : fval 1%float
                 + fval (PrimFloat.div (PrimFloat.div ret 100%float) 12%float)
                 < 2 ^ (6 + 1074)).
  { rewrite (P 6) by lia. rewrite (P 5) in Vr by lia.
    change (2 ^ 6) with 64. change (2 ^ 5) with 32 in Vr. lia. }
  pose proof (add_upper 1%float _ 6 N1 Nr ltac:(lia) Hsum) as Uf.
  rewrite (P 6) in Uf by lia. change (2 ^ 6) with 64 in Uf.
  fold f in Nf, Vf, Uf. split; [exact Nf|]. lia.
Qed.

Section Month.

Variables (f c : float).
Hypotheses (Hf : fnonneg f) (Hone : unit_val <= fval f < top) (Hc : fnonneg c).

Let step (a : float) : float := PrimFloat.add (PrimFloat.mul a f) c.

Lemma float_step_ge (a : float) : fnonneg a -> fnonneg (step a) /\ fval a <= fval (step a).
Proof.
  intros Ha. unfold step. destruct (mul_ge a f Ha Hf Hone) as [Hm Hmv].
  destruct (add_ge (PrimFloat.mul a f) c Hm Hc) as [Hs Hsv].
  split; [exact Hs | lia].
Qed.

Lemma float_iter_step_ge (n : nat) (a : float) :
  fnonneg a -> fnonneg (Nat.iter n step a) /\ fval a <= fval (Nat.iter n step a).
Proof.
  intros Ha. induction n as [|n [IHn IHv]]; cbn [Nat.iter nat_rect].
  - split; [exact Ha | lia].
  - destruct (float_step_ge _ IHn) as [Hs Hv].
    split; [exact Hs | exact (Z.le_trans _ _ _ IHv Hv)].
Qed.

Lemma float_iter_step_leb (j k : nat) (a : float) :
  fnonneg a -> (j <= k)%nat ->
  PrimFloat.leb (Nat.iter j step a) (Nat.iter k step a) = true.
Proof.
  intros Ha Hjk. replace k with ((k - j) + j)%nat by lia.
  rewrite Nat.iter_add.
  destruct (float_iter_step_ge j a Ha) as [Hj _].
  destruct (float_iter_step_ge (k - j) _ Hj) as [Hk Hv].
  apply leb_fval; assumption.
Qed.

End Month.

(** ** Division by one *)

Lemma bounded_cases (mx : positive) (ex : Z) :
  SpecFloat.bounded prec emax mx ex = true ->
  ex <= 971 /\
  ((Zpos (digits2_pos mx) = 53 /\ -1074 < ex) \/ (Zpos (digits2_pos mx) <= 53 /\ ex = -1074)).
Proof.
  unfold bounded, canonical_mantissa, fexp, emin, emax, prec.
  intros H. apply andb_prop in H. destruct H as [H1 H2].
  apply Z.eqb_eq in H1. apply Z.leb_le in H2. lia.
Qed.

Lemma div_eucl_exact (q : Z) (b : Z) : 0 < b -> Z.div_eucl (q * b) b = (q, 0).
Proof.
  intros Hb.
  assert (E : Z.div_eucl (q * b) b = ((q * b) / b, (q * b) mod b)).
  { unfold Z.div, Z.modulo. now destruct (Z.div_eucl (q * b) b). }
  rewrite E, Z.div_mul, Z.mod_mul by lia. reflexivity.
Qed.

Lemma round_canonical (sx : bool) (mx : positive) (ex : Z) :
  SpecFloat.bounded prec emax mx ex = true ->
  binary_round_aux prec emax sx (Zpos mx) ex loc_Exact = S754_finite sx mx ex.
Proof.
  intros Hv. pose proof Hv as Hb.
  unfold bounded, canonical_mantissa in Hb. apply andb_prop in Hb.
  destruct Hb as [Hc He]. apply Z.eqb_eq in Hc.
  unfold binary_round_aux, shr_fexp. cbn [Zdigits2 shr_record_of_loc].
  rewrite Hc, Z.sub_diag. cbn [shr shr_m loc_of_shr_record round_nearest_even Zdigits2 shr_record_of_loc].
  rewrite Hc, Z.sub_diag. cbn [shr shr_m]. now rewrite He.
Qed.

Lemma round_doubled (sx : bool) (mx : positive) (ex : Z) :
  SpecFloat.bounded prec emax mx ex = true ->
  Zpos (digits2_pos mx) = 53 ->
  binary_round_aux prec emax sx (Zpos mx~0) (ex - 1) loc_Exact = S754_finite sx mx ex.
Proof.
  intros Hv Hd. pose proof Hv as Hb.
  unfold bounded, canonical_mantissa in Hb. apply andb_prop in Hb.
  destruct Hb as [Hc He]. apply Z.eqb_eq in Hc.
  unfold binary_round_aux, shr_fexp. cbn [Zdigits2 digits2_pos shr_record_of_loc].
  replace (fexp prec emax (Z.pos (Pos.succ (digits2_pos mx)) + (ex - 1)) - (ex - 1)) with 1
    by (rewrite Pos2Z.inj_succ; unfold fexp, emin, prec, emax in *; lia).
  cbn [shr iter_pos shr_1 shr_m loc_of_shr_record round_nearest_even Zdigits2 shr_record_of_loc].
  replace (ex - 1 + 1) with ex by lia.
  cbn [orb round_nearest_even Zdigits2]. rewrite Hc, Z.sub_diag. cbn [shr shr_m]. now rewrite He.
Qed.

Lemma SFdiv_one (s : spec_float) :
  SpecFloat.valid_binary prec emax s = true ->
  SFdiv prec emax s (S754_finite false 4503599627370496 (-52)) = s.
Proof.
  destruct s as [sx|sx| |sx mx ex]; cbn [SpecFloat.valid_binary SFdiv]; intros Hv.
  - now destruct sx.
  - now destruct sx.
  - reflexivity.
  - destruct (bounded_cases mx ex Hv) as [Hex Hd].
    rewrite xorb_false_r.
    unfold SFdiv_core_binary.
    cbn [Zdigits2].
    change (Z.pos (digits2_pos 4503599627370496)) with 53.
    destruct Hd as [[Hd Hn] | [Hd Hs]].
    + replace (Z.min (fexp prec emax (Z.pos (digits2_pos mx) + ex - (53 + -52))) (ex - -52))
        with (ex - 1) by (unfold fexp, emin, prec, emax; lia).
      replace (ex - -52 - (ex - 1)) with 53 by lia.
      rewrite Z.shiftl_mul_pow2 by lia.
      replace (Z.pos mx * 2 ^ 53) with (Z.pos mx~0 * 4503599627370496) by lia.
      rewrite div_eucl_exact by lia.
      change (new_location 4503599627370496 0) with loc_Exact.
      now apply round_doubled.
    + replace (Z.min (fexp prec emax (Z.pos (digits2_pos mx) + ex - (53 + -52))) (ex - -52))
        with ex by (unfold fexp, emin, prec, emax; lia).
      replace (ex - -52 - ex) with 52 by lia.
      rewrite Z.shiftl_mul_pow2 by lia.
      change (2 ^ 52) with 4503599627370496.
      rewrite div_eucl_exact by lia.
      change (new_location 4503599627370496 0) with loc_Exact.
      now apply round_canonical.
Qed.

Lemma float_div_one (a : float) : PrimFloat.div a 1%float = a.
Proof.
  rewrite <- (SF2Prim_Prim2SF (PrimFloat.div a 1%float)), FloatAxioms.div_spec.
  change (Prim2SF 1%float) with (S754_finite false 4503599627370496 (-52)).
  unfold SF64div. rewrite SFdiv_one by apply Prim2SF_valid.
  apply SF2Prim_Prim2SF.
Qed.

(** ** Comparisons and [NaN] *)

Lemma SFcompare_refl (s : spec_float) :
  s <> S754_nan -> SFcompare s s = Some Eq.
Proof.
  destruct s as [sx|sx| |sx m e]; intros H; try reflexivity.
  - now destruct sx.
  - contradiction.
  - cbn [SFcompare]. rewrite Z.compare_refl.
    change (Pos.compare_cont Eq m m) with (Pos.compare m m).
    rewrite Pos.compare_refl. now destruct sx.
Qed.

Lemma is_nan_spec (x : float) :
  PrimFloat.is_nan x = true <-> Prim2SF x = S754_nan.
Proof.
  unfold PrimFloat.is_nan. rewrite FloatAxioms.eqb_spec. unfold SFeqb. split.
  - intros H. destruct (Prim2SF x) as [sx|sx| |sx m e] eqn:E; try reflexivity;
      rewrite SFcompare_refl in H by discriminate; discriminate.
  - intros ->. reflexivity.
Qed.

Lemma is_nan_false (x : float) :
  PrimFloat.is_nan x = false <-> Prim2SF x <> S754_nan.
Proof.
  rewrite <- is_nan_spec. destruct (PrimFloat.is_nan x); split; congruence.
Qed.

(** A comparison that holds has no [NaN] on either side. *)
Lemma leb_not_nan (x y : float) :
  PrimFloat.leb x y = true -> PrimFloat.is_nan x = false /\ PrimFloat.is_nan y = false.
Proof.
  rewrite FloatAxioms.leb_spec, !is_nan_false. unfold SFleb. intros H. split.
  - intros E. rewrite E in H. discriminate.
  - intros E. rewrite E in H. destruct (Prim2SF x) as [?|?| |? ? ?]; discriminate.
Qed.

Lemma SFltb_val (s t : spec_float) :
  valid s -> valid t -> nonneg s -> nonneg t ->
  (SFltb s t = true <-> val s < val t).
Proof.
  intros Hs Ht Hns Hnt.
  pose proof top_pos as Htop.
  destruct s as [ss|ss| |ss ms es]; destruct t as [st|st| |st mt et];
    cbn [nonneg] in Hns, Hnt; try contradiction; subst;
    try (pose proof (val_finite_bounds _ _ _ Hs) as Hfs);
    try (pose proof (val_finite_bounds _ _ _ Ht) as Hft);
    unfold SFltb; cbn [SFcompare val] in *;
    try (split; [intros _; lia | reflexivity]);
    try (split; [discriminate | lia]).
  destruct (Z.compare_spec es et) as [Heq | Hlt | Hgt].
  - subst et. pose proof (pow2_pos (es + 1074)) as Hp.
    destruct (bounded_inv ms es Hs) as (_ & He & _).
    specialize (Hp ltac:(lia)).
    change (Pos.compare_cont Eq ms mt) with (Pos.compare ms mt).
    destruct (Pos.compare_spec ms mt) as [E | L | G].
    + subst. split; [discriminate | lia].
    + split; [intros _; nia | reflexivity].
    + split; [discriminate | nia].
  - pose proof (finite_exp_lt ms mt es et Hs Ht Hlt). split; [lia | reflexivity].
  - pose proof (finite_exp_lt mt ms et es Ht Hs Hgt). split; [discriminate | lia].
Qed.

Lemma ltb_fval (x y : float) :
  fnonneg x -> fnonneg y -> (PrimFloat.ltb x y = true <-> fval x < fval y).
Proof.
  intros Hx Hy. rewrite FloatAxioms.ltb_spec. apply SFltb_val; auto using fvalid.
Qed.

(** A number that is not negative and lies between [1] and [Infinity] is
    finite and positive. *)
Lemma finite_of_bounds (f : float) :
  fnonneg f -> unit_val <= fval f < top ->
  exists m e, Prim2SF f = S754_finite false m e.
Proof.
  unfold fnonneg, fval. pose proof unit_val_pos as Hu.
  destruct (Prim2SF f) as [s|s| |s m e]; cbn [nonneg val]; intros Hn Hb;
    try lia; try contradiction.
  subst s. now exists m, e.
Qed.

Lemma SFeqb_val (s t : spec_float) :
  valid s -> valid t -> nonneg s -> nonneg t ->
  (SFeqb s t = true <-> val s = val t).
Proof.
  intros Hs Ht Hns Hnt.
  pose proof top_pos as Htop.
  destruct s as [ss|ss| |ss ms es]; destruct t as [st|st| |st mt et];
    cbn [nonneg] in Hns, Hnt; try contradiction; subst;
    try (pose proof (val_finite_bounds _ _ _ Hs) as Hfs);
    try (pose proof (val_finite_bounds _ _ _ Ht) as Hft);
    unfold SFeqb; cbn [SFcompare val] in *;
    try (split; [intros _; lia | reflexivity]);
    try (split; [discriminate | lia]).
  destruct (Z.compare_spec es et) as [Heq | Hlt | Hgt].
  - subst et. pose proof (pow2_pos (es + 1074)) as Hp.
    destruct (bounded_inv ms es Hs) as (_ & He & _).
    specialize (Hp ltac:(lia)).
    change (Pos.compare_cont Eq ms mt) with (Pos.compare ms mt).
    destruct (Pos.compare_spec ms mt) as [E | L | G].
    + subst. split; [lia | reflexivity].
    + split; [discriminate | nia].
    + split; [discriminate | nia].
  - pose proof (finite_exp_lt ms mt es et Hs Ht Hlt). split; [discriminate | lia].
  - pose proof (finite_exp_lt mt ms et es Ht Hs Hgt). split; [discriminate | lia].
Qed.

Lemma eqb_fval (x y : float) :
  fnonneg x -> fnonneg y -> (PrimFloat.eqb x y = true <-> fval x = fval y).
Proof.
  intros Hx Hy. rewrite FloatAxioms.eqb_spec. apply SFeqb_val; auto using fvalid.
Qed.

End Binary64Facts.

(** ** The trajectory on binary64 *)

(** C6: every point of the trajectory, [k = year - currentAge] years after
    the start, has [realValue = amount / Math.pow(1 + inflationRate / 100, k)];
    where [Math.pow(x, 0)] is [1] and dividing by [1] changes nothing, the
    point at [currentAge] has [realValue = amount]; on binary64 dividing by
    [1] changes nothing, so there [Math.pow(x, 0) = 1] is enough. *)
Theorem real_value_discounting :
  (forall (num : Type) (N : Number num) (inputs : SimulationInputs num)
          (name color : string) (mods : Modifications num),
     let m := spread inputs mods in
     let r := calculateScenario inputs name color mods in
     forall p, In p (data r) ->
       realValue p
       = div (amount p)
           (pow (add (lit 1) (div (inflationRate m) (lit 100)))
              (year p - currentAge m)))
  /\ (forall (num : Type) (N : Number num),
        (forall x : num, pow x 0 = lit 1) ->
        (forall a : num, div a (lit 1) = a) ->
        forall (inputs : SimulationInputs num) (name color : string)
               (mods : Modifications num),
          let m := spread inputs mods in
          let r := calculateScenario inputs name color mods in
          forall p, In p (data r) -> year p = currentAge m ->
            realValue p = amount p)
  /\ (forall math_pow : float -> Z -> float,
        (forall x : float, math_pow x 0 = 1%float) ->
        forall (inputs : SimulationInputs float) (name color : string)
               (mods : Modifications float),
          let m := spread inputs mods in
          let r := calculateScenario (N := float_number math_pow)
                     inputs name color mods in
          forall p, In p (data r) -> year p = currentAge m ->
            realValue p = amount p).
Proof.
  split; [|split].
  - intros num N inputs name color mods m r p Hp.
    exact (realValue_of_point inputs name color mods p Hp).
  - intros num N Hpow Hdiv inputs name color mods m r p Hp Hyear.
    exact (realValue_at_start inputs name color mods p Hpow Hdiv Hp Hyear).
  - intros math_pow Hpow inputs name color mods m r p Hp Hyear.
    exact (realValue_at_start (N := float_number math_pow) inputs name color mods p
             Hpow Binary64Facts.float_div_one Hp Hyear).
Qed.

(** C9: on binary64, when [currentSavings], [monthlyContribution] and
    [expectedReturn] are not negative and [expectedReturn] is at most 15 (its
    domain), [amount] never decreases from one point of the trajectory to the
    next. *)
Theorem nominal_amount_monotone (math_pow : float -> Z -> float)
  (inputs : SimulationInputs float) (name color : string)
  (mods : Modifications float) :
  let m := spread inputs mods in
  let r := calculateScenario (N := float_number math_pow) inputs name color mods in
  PrimFloat.leb 0%float (currentSavings m) = true ->
  PrimFloat.leb 0%float (monthlyContribution m) = true ->
  PrimFloat.leb 0%float (expectedReturn m) = true ->
  PrimFloat.leb (expectedReturn m) 15%float = true ->
  forall front p q back,
    data r = front ++ p :: q :: back ->
    PrimFloat.leb (amount p) (amount q) = true.
Proof.
  intros m r Hs Hc Hr0 Hr15 front p q back Hdata.
  destruct (consecutive_amounts (N := float_number math_pow) _ _ _ _ _ _ _ _ Hdata)
    as (j & k & Hjk & -> & ->).
  destruct (Binary64Facts.growth_factor _ Hr0 Hr15) as [Hf Hone].
  apply Binary64Facts.leb_zero in Hs, Hc.
  unfold balance_after.
  exact (Binary64Facts.float_iter_step_leb _ _ Hf Hone Hc (12 * j) (12 * k) _ Hs
           ltac:(lia)).
Qed.

(** ** Division by zero on binary64 *)

Lemma float_div_zero (x : float) :
  let q := PrimFloat.div x 0%float in
  q = infinity \/ q = neg_infinity \/ q = nan.
Proof.
  intros q. subst q.
  rewrite <- (SF2Prim_Prim2SF (PrimFloat.div x 0%float)), FloatAxioms.div_spec.
  change (Prim2SF 0%float) with (S754_zero false).
  destruct (Prim2SF x) as [s|s| |s mx e]; cbn.
  - right; right; reflexivity.
  - destruct s; [right; left | left]; reflexivity.
  - right; right; reflexivity.
  - destruct s; [right; left | left]; reflexivity.
Qed.

(** C8: [yearsOfIncome] is [finalAmount / (retirementExpenses * 12)] for every
    input, [finalAmount] being the undiscounted balance; there is no case
    for [retirementExpenses = 0], where on binary64 the quotient returned is
    [finalAmount / 0], that is [Infinity], [-Infinity] or [NaN]. *)
Theorem years_of_income_ratio :
  (forall (num : Type) (N : Number num) (inputs : SimulationInputs num)
          (name color : string) (mods : Modifications num),
     let m := spread inputs mods in
     let r := calculateScenario inputs name color mods in
     yearsOfIncome r = div (finalAmount r) (mul (retirementExpenses m) (lit 12))
     /\ finalAmount r = balance_after m (Z.to_nat (yearsToRetirement m)))
  /\ (forall (math_pow : float -> Z -> float) (inputs : SimulationInputs float)
             (name color : string) (mods : Modifications float),
        let m := spread inputs mods in
        let r := calculateScenario (N := float_number math_pow) inputs name color mods in
        retirementExpenses m = 0%float ->
        yearsOfIncome r = PrimFloat.div (finalAmount r) 0%float
        /\ (yearsOfIncome r = infinity \/ yearsOfIncome r = neg_infinity
            \/ yearsOfIncome r = nan)).
Proof.
  split.
  - intros num N inputs name color mods m r. split; [reflexivity|].
    apply calculateScenario_finalAmount.
  - intros math_pow inputs name color mods m r H0. subst m r.
    set (r := calculateScenario inputs name color mods).
    assert (E : yearsOfIncome r = PrimFloat.div (finalAmount r) 0%float).
    { subst r. rewrite (yearsOfIncome_formula (N := float_number math_pow)).
      rewrite H0. reflexivity. }
    split; [exact E|]. rewrite E. apply float_div_zero.
Qed.

(** With a horizon of at least one year the first point, labelled
    [currentAge], already carries the first twelve steps. *)
Lemma first_point_after_first_year {num : Type} {N : Number num}
  (inputs : SimulationInputs num) (name color : string) (mods : Modifications num) :
  let m := spread inputs mods in
  let r := calculateScenario inputs name color mods in
  let monthlyRate := div (div (expectedReturn m) (lit 100)) (lit 12) in
  let month := fun amt => add (mul amt (add (lit 1) monthlyRate)) (monthlyContribution m) in
  1 <= yearsToRetirement m ->
  exists p rest,
    data r = p :: rest
    /\ year p = currentAge m
    /\ amount p = Nat.iter 12 month (currentSavings m).
Proof.
  intros m r monthlyRate month HY.
  exists (point_at m 0),
         (map (point_at m) (seq 1 (Z.to_nat (yearsToRetirement m)))).
  split; [|split].
  - subst r. rewrite calculateScenario_data. fold m.
    replace (Z.to_nat (yearsToRetirement m + 1))
      with (S (Z.to_nat (yearsToRetirement m))) by lia.
    reflexivity.
  - rewrite year_point_at. lia.
  - rewrite amount_point_at.
    replace (Nat.min 1 (Z.to_nat (yearsToRetirement m))) with 1%nat by lia.
    reflexivity.
Qed.

(** On binary64 a point is back at [currentSavings] only if the first
    monthly step already left it there: the steps never decrease the
    balance. *)
Lemma back_at_start_only_if_step_idle (math_pow : float -> Z -> float)
  (inputs : SimulationInputs float) (name color : string) (mods : Modifications float) :
  let m := spread inputs mods in
  let r := calculateScenario (N := float_number math_pow) inputs name color mods in
  let monthlyRate :=
    PrimFloat.div (PrimFloat.div (expectedReturn m) 100%float) 12%float in
  let month :=
    fun amt => PrimFloat.add (PrimFloat.mul amt (PrimFloat.add 1%float monthlyRate))
                 (monthlyContribution m) in
  1 <= yearsToRetirement m ->
  PrimFloat.leb 0%float (currentSavings m) = true ->
  PrimFloat.leb 0%float (monthlyContribution m) = true ->
  PrimFloat.leb 0%float (expectedReturn m) = true ->
  PrimFloat.leb (expectedReturn m) 15%float = true ->
  forall p, In p (data r) ->
    PrimFloat.eqb (amount p) (currentSavings m) = true ->
    PrimFloat.eqb (month (currentSavings m)) (currentSavings m) = true.
Proof.
  intros m r monthlyRate month HY Hs Hc Hr0 Hr15 p Hp Heq.
  subst r. apply (data_In (N := float_number math_pow)) in Hp. fold m in Hp.
  destruct Hp as (i & Hi & ->).
  rewrite (amount_point_at (N := float_number math_pow)) in Heq.
  unfold balance_after in Heq.
  destruct (Binary64Facts.growth_factor _ Hr0 Hr15) as [Hf Hone].
  apply Binary64Facts.leb_zero in Hs, Hc.
  remember (12 * Nat.min (S i) (Z.to_nat (yearsToRetirement m)))%nat as n eqn:En.
  destruct n as [|n]; [lia|].
  rewrite Nat.iter_succ_r in Heq.
  change (month_step (N := float_number math_pow) (monthlyContribution m)
            (monthlyReturn (N := float_number math_pow) m)) with month in Heq.
  assert (Hstep : Binary64.fnonneg (month (currentSavings m))
                  /\ Binary64.fval (currentSavings m)
                     <= Binary64.fval (month (currentSavings m))).
  { exact (Binary64Facts.float_iter_step_ge _ _ Hf Hone Hc 1 _ Hs). }
  destruct Hstep as [Hn1 Hv1].
  assert (Hrest : Binary64.fnonneg (Nat.iter n month (month (currentSavings m)))
                  /\ Binary64.fval (month (currentSavings m))
                     <= Binary64.fval (Nat.iter n month (month (currentSavings m)))).
  { exact (Binary64Facts.float_iter_step_ge _ _ Hf Hone Hc n _ Hn1). }
  destruct Hrest as [Hn2 Hv2].
  apply Binary64Facts.eqb_fval in Heq; [|exact Hn2 | exact Hs].
  apply Binary64Facts.eqb_fval; [exact Hn1 | exact Hs |]. lia.
Qed.

(** C10, as amended: with a horizon of at least one year the first point,
    labelled [currentAge], carries the balance after the first twelve monthly
    steps and not [currentSavings] itself; on binary64, with
    [currentSavings], [monthlyContribution] and [expectedReturn] not negative
    and [expectedReturn] at most 15, a point of the trajectory equals
    [currentSavings] only if the first monthly step, as rounded, leaves
    [currentSavings] where it was. *)
Theorem first_point_is_grown :
  (forall (num : Type) (N : Number num) (inputs : SimulationInputs num)
          (name color : string) (mods : Modifications num),
     let m := spread inputs mods in
     let r := calculateScenario inputs name color mods in
     let monthlyRate := div (div (expectedReturn m) (lit 100)) (lit 12) in
     let month :=
       fun amt => add (mul amt (add (lit 1) monthlyRate)) (monthlyContribution m) in
     1 <= yearsToRetirement m ->
     exists p rest,
       data r = p :: rest
       /\ year p = currentAge m
       /\ amount p = Nat.iter 12 month (currentSavings m))
  /\ (forall (math_pow : float -> Z -> float) (inputs : SimulationInputs float)
             (name color : string) (mods : Modifications float),
        let m := spread inputs mods in
        let r := calculateScenario (N := float_number math_pow) inputs name color mods in
        let monthlyRate :=
          PrimFloat.div (PrimFloat.div (expectedReturn m) 100%float) 12%float in
        let month :=
          fun amt => PrimFloat.add (PrimFloat.mul amt (PrimFloat.add 1%float monthlyRate))
                       (monthlyContribution m) in
        1 <= yearsToRetirement m ->
        PrimFloat.leb 0%float (currentSavings m) = true ->
        PrimFloat.leb 0%float (monthlyContribution m) = true ->
        PrimFloat.leb 0%float (expectedReturn m) = true ->
        PrimFloat.leb (expectedReturn m) 15%float = true ->
        forall p, In p (data r) ->
          PrimFloat.eqb (amount p) (currentSavings m) = true ->
          PrimFloat.eqb (month (currentSavings m)) (currentSavings m) = true).
Proof.
  split.
  - intros num N inputs name color mods. apply first_point_after_first_year.
  - intros math_pow inputs name color mods.
    apply back_at_start_only_if_step_idle.
Qed.

(** ** The theorems at concrete inputs *)

(** The worked scenario of the specification on binary64: two points, both
    worth [1000 * 1.01^12] as rounded step by step, 1126.8250301319697, which
    covers 0.93902085844330807 years of expenses. *)
Example seed_scenario (math_pow : float -> Z -> float) :
  let r := calculateScenario (N := float_number math_pow) seed_inputs
             "Base Case" "#0891b2" no_modifications in
  map year (data r) = [30; 31]
  /\ map amount (data r) = [0x1.19b4cd4b2ec19p+10%float; 0x1.19b4cd4b2ec19p+10%float]
  /\ finalAmount r = 0x1.19b4cd4b2ec19p+10%float
  /\ yearsOfIncome r = 0x1.e0c7578a8d3cbp-1%float.
Proof. vm_compute. repeat split. Qed.

(** With nothing saved either, the ratio returned is [NaN]. *)
Example years_of_income_nan (math_pow : float -> Z -> float) :
  yearsOfIncome
    (calculateScenario (N := float_number math_pow) free_inputs
       "Base Case" "#0891b2"
       {| mod_currentAge := None; mod_retirementAge := None;
          mod_currentSavings := Some 0%float; mod_monthlyContribution := None;
          mod_expectedReturn := None; mod_inflationRate := None;
          mod_retirementExpenses := None |})
  = nan.
Proof. reflexivity. Qed.

(** C1, the claim as stated fails: five years past the retirement age the
    trajectory has no point at all. *)
Lemma negative_horizon_no_point :
  yearsToRetirement (spread late_inputs no_modifications) < 0
  /\ forall math_pow : float -> Z -> float,
       let r := calculateScenario (N := float_number math_pow) late_inputs
                  "Base Case" "#0891b2" no_modifications in
       data r = [] /\ ~ single_point_at_start (spread late_inputs no_modifications) r.
Proof.
  split; [reflexivity|]. intros math_pow r.
  assert (E : data r = []) by reflexivity.
  split; [exact E|]. intros (p & Hp & _). rewrite E in Hp. discriminate Hp.
Qed.

(** [negative_horizon_result] five years past the retirement age. *)
Lemma negative_horizon_result_late :
  yearsToRetirement (spread late_inputs no_modifications) < 0
  /\ forall math_pow : float -> Z -> float,
       let r := calculateScenario (N := float_number math_pow) late_inputs
                  "Base Case" "#0891b2" no_modifications in
       data r = []
       /\ finalAmount r = 50000%float
       /\ yearsOfIncome r = PrimFloat.div 50000%float (PrimFloat.mul 5000%float 12%float).
Proof.
  split; [reflexivity|]. intros math_pow.
  exact (negative_horizon_result (N := float_number math_pow) late_inputs
           "Base Case" "#0891b2" no_modifications eq_refl).
Defined.

(** [monthly_compounding] on the worked scenario: year 0 closes on twelve steps
    from 1000, year 1 closes where year 0 did. *)
Lemma monthly_compounding_seed :
  0 <= yearsToRetirement (spread seed_inputs no_modifications)
  /\ forall math_pow : float -> Z -> float,
       let r := calculateScenario (N := float_number math_pow) seed_inputs
                  "Base Case" "#0891b2" no_modifications in
       let month := fun amt : float =>
         PrimFloat.add
           (PrimFloat.mul amt
              (PrimFloat.add 1%float
                 (PrimFloat.div (PrimFloat.div 12%float 100%float) 12%float)))
           0%float in
       nth_error (map amount (data r)) 0 = Some (Nat.iter 12 month 1000%float)
       /\ nth_error (map amount (data r)) 1 = nth_error (map amount (data r)) 0.
Proof.
  split; [discriminate|]. intros math_pow r month.
  pose proof (monthly_compounding (N := float_number math_pow) seed_inputs
                "Base Case" "#0891b2" no_modifications) as H.
  cbv zeta in H. specialize (H ltac:(discriminate)).
  destruct H as [Hgrow Hlast]. split.
  - destruct (Hgrow O eq_refl) as (a & Ha & Hclose).
    injection Ha as <-. exact Hclose.
  - destruct Hlast as (a & Ha & Hclose).
    change (Z.to_nat (yearsToRetirement (spread seed_inputs no_modifications)))
      with 1%nat in Ha, Hclose.
    subst r. rewrite Hclose. exact (eq_sym Ha).
Defined.

(** [trajectory_ages] on the initial inputs: 36 points from age 30 to age 65. *)
Lemma trajectory_ages_initial :
  0 <= yearsToRetirement (spread initial_inputs no_modifications)
  /\ forall math_pow : float -> Z -> float,
       let ages := map year (data (calculateScenario (N := float_number math_pow)
                     initial_inputs "Base Case" "#0891b2" no_modifications)) in
       Z.of_nat (List.length ages) = 36
       /\ hd_error ages = Some 30
       /\ exists front, ages = front ++ [65].
Proof.
  split; [discriminate|]. intros math_pow ages.
  destruct (trajectory_ages (N := float_number math_pow) initial_inputs
              "Base Case" "#0891b2" no_modifications ltac:(discriminate))
    as (Hlen & _ & _ & Hhd & Hlast).
  repeat split; assumption.
Defined.

(** [terminal_duplication] on the worked scenario. *)
Lemma terminal_duplication_seed :
  1 <= yearsToRetirement (spread seed_inputs no_modifications)
  /\ forall math_pow : float -> Z -> float,
       let r := calculateScenario (N := float_number math_pow) seed_inputs
                  "Base Case" "#0891b2" no_modifications in
       exists front p q,
         data r = front ++ [p; q] /\ amount p = amount q /\ finalAmount r = amount q.
Proof.
  split; [discriminate|]. intros math_pow.
  exact (terminal_duplication (N := float_number math_pow) seed_inputs
           "Base Case" "#0891b2" no_modifications ltac:(discriminate)).
Defined.

(** [real_value_discounting] on the initial inputs, with a power by
    repeated multiplication: both facts about [Math.pow] and [/] hold. *)
Lemma real_value_discounting_initial :
  (forall x : float, pow_repeated x 0 = 1%float)
  /\ (forall a : float, PrimFloat.div a 1%float = a)
  /\ forall p,
       In p (data (calculateScenario (N := float_number pow_repeated) initial_inputs
                     "Base Case" "#0891b2" no_modifications)) ->
       year p = 30 -> realValue p = amount p.
Proof.
  assert (Hpow : forall x : float, pow_repeated x 0 = 1%float) by reflexivity.
  assert (Hdiv : forall a : float, PrimFloat.div a 1%float = a)
    by exact Binary64Facts.float_div_one.
  split; [exact Hpow|]. split; [exact Hdiv|].
  exact (proj1 (proj2 real_value_discounting) float (float_number pow_repeated)
           Hpow Hdiv initial_inputs "Base Case"%string "#0891b2"%string
           no_modifications).
Defined.

(** [years_of_income_ratio] with no expenses: the ratio returned is [Infinity]. *)
Lemma years_of_income_free :
  retirementExpenses (spread free_inputs no_modifications) = 0%float
  /\ forall math_pow : float -> Z -> float,
       yearsOfIncome (calculateScenario (N := float_number math_pow) free_inputs
                        "Base Case" "#0891b2" no_modifications)
       = infinity.
Proof.
  split; [reflexivity|]. intros math_pow.
  destruct (proj2 years_of_income_ratio math_pow free_inputs
              "Base Case"%string "#0891b2"%string no_modifications eq_refl)
    as [E _].
  rewrite E. reflexivity.
Defined.

(** [nominal_amount_monotone] on the initial inputs. *)
Lemma nominal_amount_monotone_initial :
  PrimFloat.leb 0%float 50000%float = true
  /\ PrimFloat.leb 0%float 2000%float = true
  /\ PrimFloat.leb 0%float 7%float = true
  /\ PrimFloat.leb 7%float 15%float = true
  /\ forall (math_pow : float -> Z -> float) front p q back,
       data (calculateScenario (N := float_number math_pow) initial_inputs
               "Base Case" "#0891b2" no_modifications)
       = front ++ p :: q :: back ->
       PrimFloat.leb (amount p) (amount q) = true.
Proof.
  repeat split; try reflexivity.
  intros math_pow.
  exact (nominal_amount_monotone math_pow initial_inputs "Base Case" "#0891b2"
           no_modifications eq_refl eq_refl eq_refl eq_refl).
Defined.

(** C10, the claim as stated fails on binary64, and so does its reading with
    "or [currentSavings = 0]": every point is worth the starting savings
    with nothing saved and nothing paid in at a 7 percent return, with a
    contribution of 1 on a balance of [1e17], and with the smallest
    positive balance at 7 percent. *)
Lemma start_kept_on_binary64 :
  1 <= yearsToRetirement (spread idle_inputs no_modifications)
  /\ expectedReturn (spread idle_inputs no_modifications) <> 0%float
  /\ monthlyContribution (spread absorbed_inputs no_modifications) <> 0%float
  /\ expectedReturn (spread tiny_inputs no_modifications) <> 0%float
  /\ currentSavings (spread tiny_inputs no_modifications) <> 0%float
  /\ forall math_pow : float -> Z -> float,
       let idle := calculateScenario (N := float_number math_pow) idle_inputs
                     "Base Case" "#0891b2" no_modifications in
       let absorbed := calculateScenario (N := float_number math_pow) absorbed_inputs
                         "Base Case" "#0891b2" no_modifications in
       let tiny := calculateScenario (N := float_number math_pow) tiny_inputs
                     "Base Case" "#0891b2" no_modifications in
       map year (data idle) = [64; 65]
       /\ map amount (data idle) = [0%float; 0%float]
       /\ ~ ((exists p, In p (data idle)
                        /\ amount p = currentSavings (spread idle_inputs no_modifications)) ->
             monthlyContribution (spread idle_inputs no_modifications) = 0%float
             /\ expectedReturn (spread idle_inputs no_modifications) = 0%float)
       /\ map amount (data absorbed)
          = [100000000000000000%float; 100000000000000000%float;
             100000000000000000%float]
       /\ map amount (data tiny)
          = [0x1p-1074%float; 0x1p-1074%float; 0x1p-1074%float].
Proof.
  assert (Hidle : expectedReturn (spread idle_inputs no_modifications) <> 0%float).
  { intros H. apply (f_equal (PrimFloat.eqb 0%float)) in H. discriminate H. }
  assert (Habsorbed : monthlyContribution (spread absorbed_inputs no_modifications)
                      <> 0%float).
  { intros H. apply (f_equal (PrimFloat.eqb 0%float)) in H. discriminate H. }
  assert (Htiny : expectedReturn (spread tiny_inputs no_modifications) <> 0%float).
  { intros H. apply (f_equal (PrimFloat.eqb 0%float)) in H. discriminate H. }
  assert (Hsmall : currentSavings (spread tiny_inputs no_modifications) <> 0%float).
  { intros H. apply (f_equal (PrimFloat.eqb 0%float)) in H. discriminate H. }
  split; [discriminate|]. split; [exact Hidle|]. split; [exact Habsorbed|].
  split; [exact Htiny|]. split; [exact Hsmall|].
  intros math_pow idle absorbed tiny.
  split; [reflexivity|]. split; [reflexivity|]. split; [|split; reflexivity].
  intros H. apply Hidle, H.
  exists {| year := 64; amount := 0%float;
            realValue := PrimFloat.div 0%float
                           (math_pow (PrimFloat.add 1%float
                                        (PrimFloat.div 3%float 100%float)) 0) |}.
  split; [left|]; reflexivity.
Qed.


(** [first_point_is_grown] on the initial inputs: the first point is twelve
    steps from 50000, and no point is worth 50000. *)
Lemma first_point_is_grown_initial :
  1 <= yearsToRetirement (spread initial_inputs no_modifications)
  /\ PrimFloat.leb 0%float 50000%float = true
  /\ PrimFloat.leb 0%float 2000%float = true
  /\ PrimFloat.leb 0%float 7%float = true
  /\ PrimFloat.leb 7%float 15%float = true
  /\ forall math_pow : float -> Z -> float,
       let r := calculateScenario (N := float_number math_pow) initial_inputs
                  "Base Case" "#0891b2" no_modifications in
       let month :=
         fun amt =>
           PrimFloat.add
             (PrimFloat.mul amt
                (PrimFloat.add 1%float
                   (PrimFloat.div (PrimFloat.div 7%float 100%float) 12%float)))
             2000%float in
       (exists p rest,
          data r = p :: rest /\ year p = 30
          /\ amount p = Nat.iter 12 month 50000%float)
       /\ forall p, In p (data r) -> PrimFloat.eqb (amount p) 50000%float = false.
Proof.
  assert (HY : 1 <= yearsToRetirement (spread initial_inputs no_modifications))
    by discriminate.
  split; [exact HY|]. do 4 (split; [reflexivity|]).
  intros math_pow r month. split.
  - exact (proj1 first_point_is_grown float (float_number math_pow) initial_inputs
             "Base Case"%string "#0891b2"%string no_modifications HY).
  - intros p Hp.
    destruct (PrimFloat.eqb (amount p) 50000%float) eqn:E; [|reflexivity].
    pose proof (proj2 first_point_is_grown math_pow initial_inputs
                  "Base Case"%string "#0891b2"%string no_modifications
                  HY eq_refl eq_refl eq_refl eq_refl p Hp E) as Hstep.
    discriminate Hstep.
Defined.

(** * The form, the chart data and the comparison cards *)

(** ** Editing one field *)

Section Form_facts.

Context {num : Type} {N : Number num}.

Lemma spread_no_modifications (inputs : SimulationInputs num) :
  spread inputs no_modifications = inputs.
Proof. now destruct inputs. Qed.

Lemma spread_only_field (field : Field) (value : FieldValue num field)
  (inputs : SimulationInputs num) :
  spread inputs (only_field field value) = handleInputChange field value inputs.
Proof. destruct field; reflexivity. Qed.

(** The result depends on the inputs and the override through the merged
    inputs alone. *)
Lemma calculateScenario_spread (i1 i2 : SimulationInputs num) (name color : string)
  (m1 m2 : Modifications num) :
  spread i1 m1 = spread i2 m2 ->
  calculateScenario i1 name color m1 = calculateScenario i2 name color m2.
Proof. intros H. unfold calculateScenario. now rewrite H. Qed.

(** X1: a scenario that overrides a field never sees what the form holds
    in that field: after any edit of [inflationRate] the projection of
    "Inflation Spike (5%)" is what it was, and so for [retirementAge] and
    "Early Retirement (60)", and for [expectedReturn] and the two
    scenarios on the return. *)
Theorem override_masks_edit (inputs : SimulationInputs num) :
  (forall (field : Field) (typed forced : FieldValue num field) (name color : string),
     calculateScenario (handleInputChange field typed inputs) name color
       (only_field field forced)
     = calculateScenario inputs name color (only_field field forced))
  /\ (forall rate : num,
        nth_error (buildScenarios (handleInputChange k_inflationRate rate inputs)) 1
        = nth_error (buildScenarios inputs) 1)
  /\ (forall age : Z,
        nth_error (buildScenarios (handleInputChange k_retirementAge age inputs)) 2
        = nth_error (buildScenarios inputs) 2)
  /\ (forall ret : num,
        nth_error (buildScenarios (handleInputChange k_expectedReturn ret inputs)) 3
        = nth_error (buildScenarios inputs) 3
        /\ nth_error (buildScenarios (handleInputChange k_expectedReturn ret inputs)) 4
           = nth_error (buildScenarios inputs) 4).
Proof.
  assert (H : forall (field : Field) (typed forced : FieldValue num field)
                     (name color : string),
             calculateScenario (handleInputChange field typed inputs) name color
               (only_field field forced)
             = calculateScenario inputs name color (only_field field forced)).
  { intros field typed forced name color. apply calculateScenario_spread.
    destruct field; reflexivity. }
  split; [exact H|]. split; [|split].
  - intros rate. exact (f_equal Some (H k_inflationRate rate (lit 5) _ _)).
  - intros age. exact (f_equal Some (H k_retirementAge age 60 _ _)).
  - intros ret. split.
    + exact (f_equal Some (H k_expectedReturn ret (lit 4) _ _)).
    + exact (f_equal Some (H k_expectedReturn ret (lit 10) _ _)).
Qed.

(** X2: two edits of the same field leave the later value, whatever the
    earlier one was, and edits of different fields can be made in either
    order. *)
Theorem handleInputChange_twice (field : Field) (v1 v2 : FieldValue num field)
  (prev : SimulationInputs num) :
  handleInputChange field v2 (handleInputChange field v1 prev)
  = handleInputChange field v2 prev
  /\ forall (other : Field) (w : FieldValue num other),
       other <> field ->
       handleInputChange field v2 (handleInputChange other w prev)
       = handleInputChange other w (handleInputChange field v2 prev).
Proof.
  split.
  - destruct field; reflexivity.
  - intros other w Hne. destruct field, other; try reflexivity; contradiction.
Qed.

(** X3: a what-if override of one field gives the projection the user gets
    by typing that value into the form, for every field and value; so the
    four variants of the scenario set are the base projections of the
    inputs edited in one field. *)
Theorem override_is_edit (inputs : SimulationInputs num) (name color : string) :
  (forall (field : Field) (value : FieldValue num field),
     calculateScenario inputs name color (only_field field value)
     = calculateScenario (handleInputChange field value inputs) name color
         no_modifications)
  /\ map (fun r => (finalAmount r, monthlyIncome r, yearsOfIncome r, data r))
       (buildScenarios inputs)
     = map (fun edited =>
              let r := calculateScenario edited name color no_modifications in
              (finalAmount r, monthlyIncome r, yearsOfIncome r, data r))
         [ inputs;
           handleInputChange k_inflationRate (lit 5) inputs;
           handleInputChange k_retirementAge 60 inputs;
           handleInputChange k_expectedReturn (lit 4) inputs;
           handleInputChange k_expectedReturn (lit 10) inputs ].
Proof.
  assert (H : forall (field : Field) (value : FieldValue num field),
             calculateScenario inputs name color (only_field field value)
             = calculateScenario (handleInputChange field value inputs) name color
                 no_modifications).
  { intros field value. apply calculateScenario_spread.
    now rewrite spread_only_field, spread_no_modifications. }
  split; [exact H|].
  unfold buildScenarios. cbn [map].
  rewrite <- (H k_inflationRate), <- (H k_retirementAge),
          <- (H k_expectedReturn (lit 4)), <- (H k_expectedReturn (lit 10)).
  reflexivity.
Qed.

(** ** What an override leaves alone *)

(** X4: the inflation rate touches the discounted figures only: with any
    override of [inflationRate] the final amount, the years of income and
    the ages and amounts of the trajectory are those of the projection
    without it. *)
Theorem inflation_leaves_nominal (inputs : SimulationInputs num)
  (name1 color1 name2 color2 : string) (rate : num) :
  let base := calculateScenario inputs name1 color1 no_modifications in
  let spike := calculateScenario inputs name2 color2 (only_inflationRate rate) in
  finalAmount spike = finalAmount base
  /\ yearsOfIncome spike = yearsOfIncome base
  /\ map year (data spike) = map year (data base)
  /\ map amount (data spike) = map amount (data base).
Proof.
  intros base spike. subst base spike.
  rewrite !yearsOfIncome_formula, !calculateScenario_finalAmount,
          !calculateScenario_data, !map_map.
  repeat split.
Qed.

(** X5: the retirement expenses touch the years of income only: with any
    override of [retirementExpenses] the trajectory, the final amount and the
    monthly income are those of the projection without it. *)
Theorem expenses_leave_projection (inputs : SimulationInputs num)
  (name1 color1 name2 color2 : string) (expenses : num) :
  let base := calculateScenario inputs name1 color1 no_modifications in
  let other :=
    calculateScenario inputs name2 color2 (only_field k_retirementExpenses expenses) in
  data other = data base
  /\ finalAmount other = finalAmount base
  /\ monthlyIncome other = monthlyIncome base.
Proof.
  intros base other. subst base other.
  assert (Hfin : finalAmount (calculateScenario inputs name2 color2
                                (only_field k_retirementExpenses expenses))
                 = finalAmount (calculateScenario inputs name1 color1 no_modifications)).
  { now rewrite !calculateScenario_finalAmount. }
  split; [now rewrite !calculateScenario_data|]. split; [exact Hfin|].
  etransitivity; [apply sustainable_income_lemma|].
  symmetry. etransitivity; [apply sustainable_income_lemma|].
  now rewrite Hfin.
Qed.

End Form_facts.

(** ** Bounds on binary64 *)

Section Float_bounds.

Variable math_pow : float -> Z -> float.

Let calc := calculateScenario (N := float_number math_pow).

Lemma balance_after_leb (m : SimulationInputs float) (j k : nat) :
  PrimFloat.leb 0%float (currentSavings m) = true ->
  PrimFloat.leb 0%float (monthlyContribution m) = true ->
  PrimFloat.leb 0%float (expectedReturn m) = true ->
  PrimFloat.leb (expectedReturn m) 15%float = true ->
  (j <= k)%nat ->
  PrimFloat.leb (balance_after (N := float_number math_pow) m j)
    (balance_after (N := float_number math_pow) m k) = true.
Proof.
  intros Hs Hc Hr0 Hr15 Hjk.
  destruct (Binary64Facts.growth_factor _ Hr0 Hr15) as [Hf Hone].
  apply Binary64Facts.leb_zero in Hs, Hc.
  unfold balance_after.
  exact (Binary64Facts.float_iter_step_leb _ _ Hf Hone Hc (12 * j) (12 * k) _ Hs
           ltac:(lia)).
Qed.

(** X6: on binary64, with savings, contribution and return not negative and
    the return at most 15, the balance never falls below the savings the
    projection started with: neither [finalAmount] nor the [amount] of any
    point, whatever the two ages; in particular none of them is [NaN]. *)
Theorem never_below_start (inputs : SimulationInputs float) (name color : string)
  (mods : Modifications float) :
  let m := spread inputs mods in
  let r := calc inputs name color mods in
  PrimFloat.leb 0%float (currentSavings m) = true ->
  PrimFloat.leb 0%float (monthlyContribution m) = true ->
  PrimFloat.leb 0%float (expectedReturn m) = true ->
  PrimFloat.leb (expectedReturn m) 15%float = true ->
  PrimFloat.leb (currentSavings m) (finalAmount r) = true
  /\ forall p, In p (data r) ->
       PrimFloat.leb (currentSavings m) (amount p) = true
       /\ PrimFloat.is_nan (amount p) = false.
Proof.
  intros m r Hs Hc Hr0 Hr15. subst r calc. cbv beta. split.
  - rewrite (calculateScenario_finalAmount (N := float_number math_pow)).
    exact (balance_after_leb m 0 _ Hs Hc Hr0 Hr15 ltac:(lia)).
  - intros p Hp. apply (data_In (N := float_number math_pow)) in Hp.
    destruct Hp as (i & _ & ->).
    rewrite (amount_point_at (N := float_number math_pow)). fold m.
    pose proof (balance_after_leb m 0 (Nat.min (S i) (Z.to_nat (yearsToRetirement m)))
                  Hs Hc Hr0 Hr15 ltac:(lia)) as Hle.
    split; [exact Hle|].
    apply Binary64Facts.leb_not_nan in Hle. apply Hle.
Qed.

(** X7: on binary64, with savings, contribution and return not negative and
    the return at most 15, retiring earlier never leaves a larger final
    amount: between two overrides of the retirement age, and between an
    override and the retirement age of the form. *)
Theorem earlier_retirement_never_more (inputs : SimulationInputs float)
  (name1 color1 name2 color2 : string) :
  PrimFloat.leb 0%float (currentSavings inputs) = true ->
  PrimFloat.leb 0%float (monthlyContribution inputs) = true ->
  PrimFloat.leb 0%float (expectedReturn inputs) = true ->
  PrimFloat.leb (expectedReturn inputs) 15%float = true ->
  (forall age1 age2 : Z,
     age1 <= age2 ->
     PrimFloat.leb
       (finalAmount (calc inputs name1 color1 (only_retirementAge age1)))
       (finalAmount (calc inputs name2 color2 (only_retirementAge age2))) = true)
  /\ (forall age : Z,
        age <= retirementAge inputs ->
        PrimFloat.leb
          (finalAmount (calc inputs name1 color1 (only_retirementAge age)))
          (finalAmount (calc inputs name2 color2 no_modifications)) = true).
Proof.
  intros Hs Hc Hr0 Hr15. subst calc. cbv beta.
  assert (H : forall age1 age2 : Z,
             age1 <= age2 ->
             PrimFloat.leb
               (finalAmount (calculateScenario (N := float_number math_pow)
                               inputs name1 color1 (only_retirementAge age1)))
               (finalAmount (calculateScenario (N := float_number math_pow)
                               inputs name2 color2 (only_retirementAge age2))) = true).
  { intros age1 age2 Hle.
    rewrite !(calculateScenario_finalAmount (N := float_number math_pow)).
    change (balance_after (N := float_number math_pow)
              (spread inputs (only_retirementAge age2)))
      with (balance_after (N := float_number math_pow)
              (spread inputs (only_retirementAge age1))).
    apply balance_after_leb; try assumption.
    unfold yearsToRetirement. cbn [spread only_retirementAge retirementAge currentAge
      override mod_retirementAge mod_currentAge]. lia. }
  split; [exact H|].
  intros age Hle.
  rewrite (calculateScenario_spread (N := float_number math_pow) inputs inputs
             name2 color2 no_modifications (only_retirementAge (retirementAge inputs))).
  - now apply H.
  - now destruct inputs.
Qed.

End Float_bounds.

Lemma Forall2_map_same {A B C : Type} (P : B -> C -> Prop) (f : A -> B) (g : A -> C) (l : list A) :
  (forall x, In x l -> P (f x) (g x)) -> Forall2 P (map f l) (map g l).
Proof.
  induction l as [|x l IH]; intros H; cbn [map]; constructor.
  - apply H. now left.
  - apply IH. intros y Hy. apply H. now right.
Qed.

(** ** The rows of the chart *)

Section Row_facts.

Context {num : Type}.

Implicit Types (row : DataRow num) (key : string).

Lemma length_append (s1 s2 : string) :
  String.length (s1 ++ s2) = (String.length s1 + String.length s2)%nat.
Proof. induction s1 as [|c s1 IH]; cbn; [reflexivity | now rewrite IH]. Qed.

Lemma real_key_not_name (s : string) : (s ++ "_real")%string <> s.
Proof.
  intros E. apply (f_equal String.length) in E. rewrite length_append in E.
  cbn in E. lia.
Qed.

Lemma real_key_not_year (s : string) : "year"%string <> (s ++ "_real")%string.
Proof.
  intros E. apply (f_equal String.length) in E. rewrite length_append in E.
  cbn in E. lia.
Qed.

Lemma real_key_not_proto (s : string) : (s ++ "_real")%string <> "__proto__"%string.
Proof.
  intros E. destruct s as [|c1 [|c2 [|c3 [|c4 [|c5 s]]]]]; cbn in E;
    try discriminate E.
  injection E as _ _ _ _ _ E.
  apply (f_equal String.length) in E. rewrite length_append in E. cbn in E. lia.
Qed.

Lemma row_get_set_same key (v : Cell num) row :
  key <> "__proto__"%string -> row_get key (row_set key v row) = Some v.
Proof.
  intros H. unfold row_set. apply String.eqb_neq in H. rewrite H.
  cbn [row_get]. now rewrite String.eqb_refl.
Qed.

Lemma row_get_set_other key k (v : Cell num) row :
  key <> k -> row_get key (row_set k v row) = row_get key row.
Proof.
  intros H. unfold row_set. destruct (String.eqb k "__proto__"); [reflexivity|].
  cbn [row_get]. apply String.eqb_neq in H. now rewrite H.
Qed.

Lemma row_get_add_series_other (b : DataPoint num) row (s : ScenarioResult num) key :
  key <> name s -> key <> (name s ++ "_real")%string ->
  row_get key (add_series b row s) = row_get key row.
Proof.
  intros H1 H2. unfold add_series.
  destruct (find _ (data s)); [|reflexivity].
  now rewrite !row_get_set_other.
Qed.

Lemma row_get_fold_other (b : DataPoint num) (l : list (ScenarioResult num)) row key :
  ~ In key (flat_map series_keys l) ->
  row_get key (fold_left (add_series b) l row) = row_get key row.
Proof.
  revert row. induction l as [|s l IH]; intros row H; [reflexivity|].
  cbn [fold_left]. cbn [flat_map series_keys app In] in H.
  rewrite IH by tauto.
  apply row_get_add_series_other; intros E; apply H; rewrite E; tauto.
Qed.

Lemma row_get_add_series (b : DataPoint num) row (s : ScenarioResult num) :
  name s <> "__proto__"%string ->
  row_get (name s) (add_series b row s)
  = match find (fun p => year p =? year b) (data s) with
    | Some p => Some (NumCell (amount p))
    | None => row_get (name s) row
    end
  /\ row_get (name s ++ "_real") (add_series b row s)
     = match find (fun p => year p =? year b) (data s) with
       | Some p => Some (NumCell (realValue p))
       | None => row_get (name s ++ "_real") row
       end.
Proof.
  intros Hproto. unfold add_series.
  destruct (find _ (data s)) as [p|]; [|split; reflexivity]. split.
  - rewrite row_get_set_other by (intros E; symmetry in E; exact (real_key_not_name _ E)).
    now apply row_get_set_same.
  - apply row_get_set_same, real_key_not_proto.
Qed.

Lemma row_get_fold (b : DataPoint num) (l : list (ScenarioResult num)) row
  (s : ScenarioResult num) :
  NoDup (flat_map series_keys l) -> In s l -> name s <> "__proto__"%string ->
  row_get (name s) (fold_left (add_series b) l row)
  = match find (fun p => year p =? year b) (data s) with
    | Some p => Some (NumCell (amount p))
    | None => row_get (name s) row
    end
  /\ row_get (name s ++ "_real") (fold_left (add_series b) l row)
     = match find (fun p => year p =? year b) (data s) with
       | Some p => Some (NumCell (realValue p))
       | None => row_get (name s ++ "_real") row
       end.
Proof.
  intros Hnodup Hin Hproto. revert row.
  induction l as [|x l IH]; intros row; [contradiction|].
  cbn [flat_map series_keys app] in Hnodup.
  apply NoDup_cons_iff in Hnodup. destruct Hnodup as [Hx1 Hnodup].
  apply NoDup_cons_iff in Hnodup. destruct Hnodup as [Hx2 Hnodup].
  cbn [In] in Hx1. cbn [fold_left].
  assert (Hkeys : forall t, In t l ->
             In (name t) (flat_map series_keys l)
             /\ In (name t ++ "_real")%string (flat_map series_keys l)).
  { intros t Ht. split; apply in_flat_map; exists t; (split; [exact Ht|]);
      cbn; tauto. }
  destruct (in_dec String.string_dec (name s) (flat_map series_keys l)) as [Hl|Hl].
  - assert (Hs : In s l).
    { destruct Hin as [<-|Hs]; [|exact Hs]. exfalso. tauto. }
    destruct (Hkeys s Hs) as [Hk1 Hk2].
    destruct (IH Hnodup Hs (add_series b row x)) as [E1 E2].
    rewrite E1, E2.
    rewrite !(row_get_add_series_other b row x); try (intros E; rewrite E in *; tauto).
    split; reflexivity.
  - assert (Hs : s = x).
    { destruct Hin as [<-|Hs]; [reflexivity|]. exfalso. apply Hl, (Hkeys s Hs). }
    subst x. rewrite !row_get_fold_other by tauto.
    now apply row_get_add_series.
Qed.

(** X10: the chart has no row without scenarios, and otherwise one row for
    each point of the first scenario, in order, whatever the others hold:
    no row at all when the first scenario has no point. *)
Theorem combinedData_rows (scenarios : list (ScenarioResult num)) :
  match scenarios with
  | [] => combinedData scenarios = []
  | first :: _ =>
      List.length (combinedData scenarios) = List.length (data first)
      /\ (data first = [] -> combinedData scenarios = [])
      /\ ((forall s, In s scenarios -> name s <> "year"%string) ->
          map (row_get "year") (combinedData scenarios)
          = map (fun p => Some (AgeCell (year p))) (data first))
  end.
Proof.
  destruct scenarios as [|first rest]; [reflexivity|].
  unfold combinedData. split; [apply length_map|]. split.
  - now intros ->.
  - intros Hyear. rewrite map_map. apply map_ext. intros b.
    rewrite row_get_fold_other.
    + cbn [row_get]. now rewrite String.eqb_refl.
    + intros Hin. apply in_flat_map in Hin. destruct Hin as (s & Hs & Hk).
      cbn [series_keys In] in Hk. destruct Hk as [Hk | [Hk | []]].
      * now apply (Hyear s Hs).
      * symmetry in Hk. exact (real_key_not_year _ Hk).
Qed.

(** X11: when the keys the scenarios write ([name] and [name_real], with
    ["year"]) are all different, the row of a base point holds for each
    scenario the [amount] and the [realValue] of its first point of that
    age, and nothing under its keys when it has no such point. *)
Theorem combinedData_lookup (first : ScenarioResult num)
  (rest : list (ScenarioResult num)) :
  let scenarios := first :: rest in
  NoDup ("year"%string :: flat_map series_keys scenarios) ->
  Forall2
    (fun (basePoint : DataPoint num) (row : DataRow num) =>
       row_get "year" row = Some (AgeCell (year basePoint))
       /\ forall s, In s scenarios -> name s <> "__proto__"%string ->
            row_get (name s) row
            = option_map (fun p => NumCell (amount p))
                (find (fun p => year p =? year basePoint) (data s))
            /\ row_get (name s ++ "_real") row
               = option_map (fun p => NumCell (realValue p))
                   (find (fun p => year p =? year basePoint) (data s)))
    (data first) (combinedData scenarios).
Proof.
  intros scenarios Hnodup.
  apply NoDup_cons_iff in Hnodup. destruct Hnodup as [Hyear Hnodup].
  unfold combinedData, scenarios.
  rewrite <- (map_id (data first)) at 1. apply Forall2_map_same.
  intros b _. cbv beta. fold scenarios. split.
  - rewrite row_get_fold_other by exact Hyear.
    cbn [row_get]. now rewrite String.eqb_refl.
  - intros s Hs Hproto.
    destruct (row_get_fold b scenarios [("year"%string, AgeCell (year b))] s
                Hnodup Hs Hproto) as [E1 E2].
    rewrite E1, E2.
    assert (Hname : name s <> "year"%string).
    { intros E. apply Hyear. apply in_flat_map. exists s. split; [exact Hs|].
      cbn. now left. }
    destruct (find _ (data s)); cbn [option_map row_get]; [split; reflexivity|].
    apply String.eqb_neq in Hname. rewrite Hname.
    assert (Hreal : (name s ++ "_real")%string <> "year"%string).
    { intros E. symmetry in E. exact (real_key_not_year _ E). }
    apply String.eqb_neq in Hreal. rewrite Hreal. split; reflexivity.
Qed.

End Row_facts.

(** ** The chart of the scenario set *)

Section Chart_facts.

Context {num : Type} {N : Number num}.

Lemma calculateScenario_name (inputs : SimulationInputs num) (name' color' : string)
  (mods : Modifications num) :
  name (calculateScenario inputs name' color' mods) = name'.
Proof. reflexivity. Qed.

Lemma buildScenarios_map (inputs : SimulationInputs num) :
  buildScenarios inputs
  = map (fun e => calculateScenario inputs (fst (fst e)) (snd (fst e)) (snd e))
      catalogue.
Proof. reflexivity. Qed.

Lemma find_point_at (m : SimulationInputs num) (a : Z) (n s : nat) :
  find (fun p => year p =? a) (map (point_at m) (seq s n))
  = if (currentAge m + Z.of_nat s <=? a) && (a <? currentAge m + Z.of_nat s + Z.of_nat n)
    then Some (point_at m (Z.to_nat (a - currentAge m)))
    else None.
Proof.
  revert s. induction n as [|n IH]; intros s.
  - cbn [seq map find].
    destruct (Z.leb_spec (currentAge m + Z.of_nat s) a);
      destruct (Z.ltb_spec a (currentAge m + Z.of_nat s + Z.of_nat 0));
      cbn [andb]; try reflexivity; lia.
  - cbn [seq map find]. rewrite year_point_at, IH.
    destruct (Z.eqb_spec (currentAge m + Z.of_nat s) a) as [E|E].
    + destruct (Z.leb_spec (currentAge m + Z.of_nat s) a);
        destruct (Z.ltb_spec a (currentAge m + Z.of_nat s + Z.of_nat (S n)));
        cbn [andb]; try lia.
      do 2 f_equal. lia.
    + destruct (Z.leb_spec (currentAge m + Z.of_nat (S s)) a);
        destruct (Z.ltb_spec a (currentAge m + Z.of_nat (S s) + Z.of_nat n));
        destruct (Z.leb_spec (currentAge m + Z.of_nat s) a);
        destruct (Z.ltb_spec a (currentAge m + Z.of_nat s + Z.of_nat (S n)));
        cbn [andb]; try reflexivity; lia.
Qed.

(** [data.find(p => p.year === a)] on a trajectory. *)
Lemma data_find (inputs : SimulationInputs num) (name' color' : string)
  (mods : Modifications num) (a : Z) :
  let m := spread inputs mods in
  find (fun p => year p =? a) (data (calculateScenario inputs name' color' mods))
  = if (currentAge m <=? a) && (a <=? retirementAge m)
    then Some (point_at m (Z.to_nat (a - currentAge m)))
    else None.
Proof.
  intros m. rewrite calculateScenario_data. fold m. rewrite find_point_at.
  unfold yearsToRetirement.
  destruct (Z.leb_spec (currentAge m + Z.of_nat 0) a);
    destruct (Z.ltb_spec a (currentAge m + Z.of_nat 0
                            + Z.of_nat (Z.to_nat (retirementAge m - currentAge m + 1))));
    destruct (Z.leb_spec (currentAge m) a);
    destruct (Z.leb_spec a (retirementAge m));
    cbn [andb]; try reflexivity; lia.
Qed.

Lemma buildScenarios_keys (inputs : SimulationInputs num) :
  flat_map series_keys (buildScenarios inputs)
  = [ "Base Case"; "Base Case_real";
      "Inflation Spike (5%)"; "Inflation Spike (5%)_real";
      "Early Retirement (60)"; "Early Retirement (60)_real";
      "Market Downturn (4% return)"; "Market Downturn (4% return)_real";
      "Optimistic (10% return)"; "Optimistic (10% return)_real" ]%string.
Proof. reflexivity. Qed.

Lemma buildScenarios_keys_NoDup (inputs : SimulationInputs num) :
  NoDup (flat_map series_keys (buildScenarios inputs)).
Proof.
  rewrite buildScenarios_keys.
  repeat (constructor; [cbn [In]; intuition discriminate|]). constructor.
Qed.

(** X12: the chart of the scenario set has one row for each age from
    [currentAge] to [retirementAge], none when [retirementAge < currentAge]
    whatever the other scenarios hold; each row holds the age and, for each
    scenario of the catalogue, its [amount] and [realValue] at that age when
    the age is at most the scenario's retirement age, and nothing under
    its keys beyond it: the line of "Early Retirement (60)" ends at 60. *)
Theorem chart_of_buildScenarios (inputs : SimulationInputs num) :
  let chart := combinedData (buildScenarios inputs) in
  List.length chart = Z.to_nat (yearsToRetirement inputs + 1)
  /\ forall i : nat,
       Z.of_nat i <= yearsToRetirement inputs ->
       exists row,
         nth_error chart i = Some row
         /\ row_get "year" row = Some (AgeCell (currentAge inputs + Z.of_nat i))
         /\ forall name' color' mods,
              In (name', color', mods) catalogue ->
              let m := spread inputs mods in
              row_get name' row
              = (if currentAge inputs + Z.of_nat i <=? retirementAge m
                 then Some (NumCell (amount (point_at m i))) else None)
              /\ row_get (name' ++ "_real") row
                 = (if currentAge inputs + Z.of_nat i <=? retirementAge m
                    then Some (NumCell (realValue (point_at m i))) else None).
Proof.
  intros chart. subst chart.
  assert (Hchart : combinedData (buildScenarios inputs)
                   = map (fun b => fold_left (add_series b) (buildScenarios inputs)
                                     [("year"%string, AgeCell (year b))])
                       (data (calculateScenario inputs "Base Case" "#0891b2"
                                no_modifications))) by reflexivity.
  rewrite Hchart. clear Hchart. split.
  - rewrite length_map, calculateScenario_data, length_map, length_seq.
    now rewrite spread_no_modifications.
  - intros i Hi.
    rewrite nth_error_map, data_nth
      by (rewrite spread_no_modifications; exact Hi).
    rewrite spread_no_modifications. cbn [option_map].
    eexists. split; [reflexivity|]. rewrite year_point_at. split.
    + rewrite row_get_fold_other; [cbn [row_get]; now rewrite String.eqb_refl|].
      rewrite buildScenarios_keys. cbn [In]. intuition discriminate.
    + intros name' color' mods Hin. set (m := spread inputs mods).
      assert (Hs : In (calculateScenario inputs name' color' mods)
                     (buildScenarios inputs)).
      { rewrite buildScenarios_map.
        exact (in_map (fun e => calculateScenario inputs (fst (fst e)) (snd (fst e))
                                  (snd e)) _ _ Hin). }
      assert (Hage : currentAge m = currentAge inputs
                     /\ name' <> "__proto__"%string).
      { cbn [catalogue In] in Hin.
        destruct Hin as [E | [E | [E | [E | [E | []]]]]]; injection E as <- <- <-;
          (split; [reflexivity | discriminate]). }
      destruct Hage as [Hage Hproto].
      destruct (row_get_fold (point_at inputs i) (buildScenarios inputs)
                  [("year"%string, AgeCell (currentAge inputs + Z.of_nat i))]
                  (calculateScenario inputs name' color' mods)
                  (buildScenarios_keys_NoDup inputs) Hs Hproto) as [E1 E2].
      rewrite calculateScenario_name in E1, E2. rewrite E1, E2. clear E1 E2.
      rewrite year_point_at, data_find. fold m. rewrite Hage.
      replace (currentAge inputs + Z.of_nat i - currentAge inputs) with (Z.of_nat i)
        by lia.
      rewrite Nat2Z.id.
      destruct (Z.leb_spec (currentAge inputs) (currentAge inputs + Z.of_nat i));
        [|lia].
      cbn [andb].
      destruct (Z.leb_spec (currentAge inputs + Z.of_nat i) (retirementAge m));
        [split; reflexivity|].
      cbn [row_get].
      assert (Hy : name' <> "year"%string /\ (name' ++ "_real")%string <> "year"%string).
      { split; [|intros E; symmetry in E; exact (real_key_not_year _ E)].
        cbn [catalogue In] in Hin.
        destruct Hin as [E | [E | [E | [E | [E | []]]]]]; injection E as <- <- <-;
          discriminate. }
      destruct Hy as [Hy1 Hy2]. apply String.eqb_neq in Hy1, Hy2.
      rewrite Hy1, Hy2. split; reflexivity.
Qed.

End Chart_facts.

(** ** The comparison cards *)

Lemma find_first {A : Type} (f : A -> bool) (l : list A) (x : A) :
  find f l = Some x ->
  exists front back,
    l = front ++ x :: back /\ f x = true /\ forall y, In y front -> f y = false.
Proof.
  induction l as [|a l IH]; [discriminate|]. cbn [find].
  destruct (f a) eqn:Ea.
  - intros [= <-]. exists [], l. repeat split; [exact Ea | intros y []].
  - intros H. destruct (IH H) as (front & back & -> & Hx & Hfront).
    exists (a :: front), back. repeat split; [exact Hx|].
    intros y [<- | Hy]; [exact Ea | now apply Hfront].
Qed.

(** X13: the comparison renders nothing exactly when no scenario is named
    "Base Case"; otherwise there is one card for each scenario, in order,
    every difference is taken against the first scenario of that name, and
    the trends are left out on exactly the cards of that name. *)
Theorem ScenarioComparison_baseline (scenarios : list (ScenarioResult float)) :
  (ScenarioComparison scenarios = None
   <-> forall s, In s scenarios -> name s <> "Base Case"%string)
  /\ forall cards,
       ScenarioComparison scenarios = Some cards ->
       map card_scenario cards = scenarios
       /\ exists front baseScenario back,
            scenarios = front ++ baseScenario :: back
            /\ name baseScenario = "Base Case"%string
            /\ (forall s, In s front -> name s <> "Base Case"%string)
            /\ forall card, In card cards ->
                 card_savingsDiff card
                 = calculateDifference (finalAmount (card_scenario card))
                     (finalAmount baseScenario)
                 /\ card_incomeDiff card
                    = calculateDifference (monthlyIncome (card_scenario card))
                        (monthlyIncome baseScenario)
                 /\ (card_savingsTrend card = None
                     <-> name (card_scenario card) = "Base Case"%string)
                 /\ (card_incomeTrend card = None
                     <-> name (card_scenario card) = "Base Case"%string).
Proof.
  unfold ScenarioComparison. split.
  - destruct (find _ scenarios) as [b|] eqn:E.
    + split; [discriminate|]. intros H. apply find_some in E.
      destruct E as [Hb Hn]. apply String.eqb_eq in Hn. now apply H in Hb.
    + split; [|reflexivity]. intros _ s Hs.
      apply String.eqb_neq. exact (find_none _ _ E s Hs).
  - intros cards. destruct (find _ scenarios) as [b|] eqn:E; [|discriminate].
    intros [= <-]. split.
    + rewrite map_map. cbn [card_of card_scenario]. apply map_id.
    + destruct (find_first _ _ _ E) as (front & back & Hsplit & Hb & Hfront).
      exists front, b, back. split; [exact Hsplit|].
      split; [now apply String.eqb_eq|].
      split; [intros s Hs; apply String.eqb_neq; now apply Hfront|].
      intros card Hcard. apply in_map_iff in Hcard. destruct Hcard as (s & <- & _).
      cbn [card_of card_scenario card_savingsDiff card_incomeDiff card_savingsTrend
           card_incomeTrend].
      repeat split; try (destruct (String.eqb_spec (name s) "Base Case");
                         intros H; congruence).
Qed.

(** X14: the scenario set is always rendered: its baseline is its first
    element, that card alone is the current plan, and each of the four
    variants gets its own insight, none the baseline's text. *)
Theorem comparison_of_buildScenarios (math_pow : float -> Z -> float)
  (inputs : SimulationInputs float) :
  let scenarios := buildScenarios (N := float_number math_pow) inputs in
  let maxSavings := math_max (map finalAmount scenarios) in
  ScenarioComparison scenarios
  = Some (map (card_of (nth 0 scenarios
                          (calculateScenario (N := float_number math_pow) inputs
                             "" "" no_modifications))
                 maxSavings) scenarios)
  /\ forall cards,
       ScenarioComparison scenarios = Some cards ->
       map card_isBaseCase cards = [true; false; false; false; false]
       /\ map card_insight cards
          = [ "Your baseline retirement projection";
              "Higher inflation reduces purchasing power of retirement savings";
              "Retiring 5 years early significantly reduces accumulation time";
              "Lower returns require higher savings or later retirement";
              "Higher returns can significantly boost retirement readiness" ]%string.
Proof.
  intros scenarios maxSavings.
  assert (E : ScenarioComparison scenarios
              = Some (map (card_of (nth 0 scenarios
                                      (calculateScenario (N := float_number math_pow)
                                         inputs "" "" no_modifications))
                             maxSavings) scenarios)) by reflexivity.
  split; [exact E|].
  intros cards H. rewrite E in H. injection H as <-.
  split; reflexivity.
Qed.

(** X15: the icon and the colour of a difference always agree: the icon's
    class is the colour's; green is for a difference above 5, red for one
    below -5 and for no other, grey for the rest, [NaN] included. *)
Theorem difference_marks (percentage : float) :
  icon_className (getDifferenceIcon percentage)
  = ("h-4 w-4 " ++ getDifferenceColor percentage)%string
  /\ (getDifferenceColor percentage = "text-success"%string
      <-> PrimFloat.ltb 5%float percentage = true)
  /\ (getDifferenceColor percentage = "text-destructive"%string
      <-> PrimFloat.ltb percentage (PrimFloat.opp 5%float) = true)
  /\ (icon_component (getDifferenceIcon percentage) = "Minus"%string
      <-> getDifferenceColor percentage = "text-muted-foreground"%string)
  /\ (PrimFloat.is_nan percentage = true ->
      getDifferenceColor percentage = "text-muted-foreground"%string).
Proof.
  assert (Hexcl : PrimFloat.ltb 5%float percentage = true ->
                  PrimFloat.ltb percentage (PrimFloat.opp 5%float) = true -> False).
  { rewrite !FloatAxioms.ltb_spec.
    replace (Prim2SF (PrimFloat.opp 5%float))
      with (S754_finite true 5629499534213120 (-50)) by (vm_compute; reflexivity).
    replace (Prim2SF 5%float)
      with (S754_finite false 5629499534213120 (-50)) by (vm_compute; reflexivity).
    destruct (Prim2SF percentage) as [s|s| |s m e]; try destruct s;
      unfold SFltb; cbn [SFcompare]; intros H1 H2; discriminate. }
  unfold getDifferenceIcon, getDifferenceColor.
  destruct (PrimFloat.ltb 5%float percentage) eqn:E5;
    destruct (PrimFloat.ltb percentage (PrimFloat.opp 5%float)) eqn:Em;
    cbn [icon_className icon_component];
    (split; [reflexivity|]); (split; [split; congruence|]);
    (split; [split; try congruence; intros _; exfalso; now apply Hexcl|]);
    (split; [split; congruence|]);
    intros Hnan; apply Binary64Facts.is_nan_spec in Hnan;
    rewrite FloatAxioms.ltb_spec, ?Hnan in E5, Em;
    try reflexivity; try discriminate.
Qed.

(** ** The percentage against the baseline *)

Lemma calculateDifference_spec (value baseValue : float) :
  calculateDifference value baseValue
  = SF2Prim (SFmul prec emax
               (SFdiv prec emax (SFsub prec emax (Prim2SF value) (Prim2SF baseValue))
                  (Prim2SF baseValue))
               (Prim2SF 100%float)).
Proof.
  unfold calculateDifference.
  rewrite <- (SF2Prim_Prim2SF (PrimFloat.mul _ _)).
  now rewrite FloatAxioms.mul_spec, FloatAxioms.div_spec, FloatAxioms.sub_spec.
Qed.

Lemma SFsub_diag (s : bool) (m : positive) (e : Z) :
  SFsub prec emax (S754_finite s m e) (S754_finite s m e) = S754_zero false.
Proof.
  cbn [SFsub]. now rewrite Z.sub_diag.
Qed.

(** The difference of a positive finite number against itself is [0]. *)
Lemma calculateDifference_diag (value : float) :
  PrimFloat.ltb 0%float value = true -> PrimFloat.ltb value infinity = true ->
  calculateDifference value value = 0%float.
Proof.
  rewrite !FloatAxioms.ltb_spec, calculateDifference_spec.
  change (Prim2SF 0%float) with (S754_zero false).
  change (Prim2SF infinity) with (S754_infinity false).
  replace (Prim2SF 100%float) with (S754_finite false 7036874417766400 (-46))
    by (vm_compute; reflexivity).
  destruct (Prim2SF value) as [s|s| |s m e]; unfold SFltb; cbn [SFcompare];
    try discriminate; try (destruct s; discriminate).
  destruct s; [discriminate|]. intros _ _.
  rewrite SFsub_diag. reflexivity.
Qed.

Lemma eqb_zero (x : float) :
  PrimFloat.eqb x 0%float = true ->
  exists sign, Prim2SF x = S754_zero sign /\ is_neg_zero x = sign.
Proof.
  unfold is_neg_zero.
  rewrite FloatAxioms.eqb_spec, FloatAxioms.classify_spec.
  change (Prim2SF 0%float) with (S754_zero false).
  unfold SFeqb, SF64classify, SFclassify.
  destruct (Prim2SF x) as [s|s| |s m e]; cbn [SFcompare]; try destruct s;
    try discriminate; intros _; eexists; split; reflexivity.
Qed.

(** X16: against a baseline equal to [0] the percentage is never a finite
    number.  With the baseline [+0] it is [Infinity] for a positive value
    (green, with a plus sign), [-Infinity] for a negative one (red) and
    [NaN] otherwise, that is for a value [0] or [NaN] (grey); with the
    baseline [-0] the two infinities change places. *)
Theorem difference_from_zero (value baseValue : float) :
  PrimFloat.eqb baseValue 0%float = true ->
  let diff := calculateDifference value baseValue in
  let above := if is_neg_zero baseValue then neg_infinity else infinity in
  let below := if is_neg_zero baseValue then infinity else neg_infinity in
  diff = (if PrimFloat.ltb 0%float value then above
          else if PrimFloat.ltb value 0%float then below
          else nan)
  /\ trend_color (trend_of diff)
     = (if PrimFloat.is_nan diff then "text-muted-foreground"
        else if PrimFloat.ltb 0%float diff then "text-success"
        else "text-destructive")%string
  /\ trend_sign (trend_of diff)
     = (if PrimFloat.is_nan diff then ""
        else if PrimFloat.ltb 0%float diff then "+" else "")%string.
Proof.
  intros Hzero diff above below.
  destruct (eqb_zero baseValue Hzero) as (sign & Hbase & Hneg).
  assert (E : diff = if PrimFloat.ltb 0%float value then above
                     else if PrimFloat.ltb value 0%float then below
                     else nan).
  { subst diff above below. rewrite Hneg.
    rewrite !FloatAxioms.ltb_spec, calculateDifference_spec, Hbase.
    change (Prim2SF 0%float) with (S754_zero false).
    replace (Prim2SF 100%float) with (S754_finite false 7036874417766400 (-46))
      by (vm_compute; reflexivity).
    destruct (Prim2SF value) as [s|s| |s m e]; try destruct s; destruct sign;
      reflexivity. }
  split; [exact E|]. rewrite E. subst above below.
  destruct (is_neg_zero baseValue);
    destruct (PrimFloat.ltb 0%float value); try (split; reflexivity);
    destruct (PrimFloat.ltb value 0%float); split; reflexivity.
Qed.

(** X17: the inflation rate does not move the final amount, so on the card
    of "Inflation Spike (5%)" the savings difference of a positive finite
    baseline is [0]: grey, the flat icon, no sign. *)
Theorem inflation_card_is_flat (math_pow : float -> Z -> float)
  (inputs : SimulationInputs float) :
  let scenarios := buildScenarios (N := float_number math_pow) inputs in
  let base :=
    calculateScenario (N := float_number math_pow) inputs "Base Case" "#0891b2"
      no_modifications in
  PrimFloat.ltb 0%float (finalAmount base) = true ->
  PrimFloat.ltb (finalAmount base) infinity = true ->
  forall cards,
    ScenarioComparison scenarios = Some cards ->
    exists card,
      nth_error cards 1 = Some card
      /\ name (card_scenario card) = "Inflation Spike (5%)"%string
      /\ card_savingsDiff card = 0%float
      /\ card_savingsTrend card
         = Some {| trend_color := "text-muted-foreground";
                   trend_icon := {| icon_component := "Minus";
                                    icon_className := "h-4 w-4 text-muted-foreground" |};
                   trend_sign := "" |}.
Proof.
  intros scenarios base Hpos Hfin cards Hcards.
  assert (E : ScenarioComparison scenarios
              = Some (map (card_of base (math_max (map finalAmount scenarios)))
                        scenarios)) by reflexivity.
  rewrite E in Hcards. injection Hcards as <-.
  eexists. split; [reflexivity|]. split; [reflexivity|].
  assert (Hdiff : calculateDifference
                    (finalAmount (calculateScenario (N := float_number math_pow) inputs
                                    "Inflation Spike (5%)" "#dc2626"
                                    (only_inflationRate 5%float)))
                    (finalAmount base) = 0%float).
  { replace (finalAmount (calculateScenario (N := float_number math_pow) inputs
                            "Inflation Spike (5%)" "#dc2626"
                            (only_inflationRate 5%float)))
      with (finalAmount base)
      by (subst base;
          now rewrite !(calculateScenario_finalAmount (N := float_number math_pow))).
    now apply calculateDifference_diag. }
  split; [exact Hdiff|].
  change (Some (trend_of
                  (calculateDifference
                     (finalAmount (calculateScenario (N := float_number math_pow) inputs
                                     "Inflation Spike (5%)" "#dc2626"
                                     (only_inflationRate 5%float)))
                     (finalAmount base)))
          = Some {| trend_color := "text-muted-foreground";
                    trend_icon := {| icon_component := "Minus";
                                     icon_className := "h-4 w-4 text-muted-foreground" |};
                    trend_sign := "" |}).
  rewrite Hdiff. reflexivity.
Qed.

(** ** The largest final amount *)

Section Math_max.

Import Binary64 Binary64Facts.

Lemma is_pos_zero_spec (x : float) :
  is_pos_zero x = true -> Prim2SF x = S754_zero false.
Proof.
  unfold is_pos_zero. rewrite FloatAxioms.classify_spec.
  unfold SF64classify, SFclassify.
  destruct (Prim2SF x) as [s|s| |s m e]; try destruct s; intros H;
    try discriminate H; try reflexivity;
    destruct (Z.pos (digits2_pos m) =? prec); discriminate H.
Qed.

Lemma is_neg_zero_spec (x : float) :
  is_neg_zero x = true -> Prim2SF x = S754_zero true.
Proof.
  unfold is_neg_zero. rewrite FloatAxioms.classify_spec.
  unfold SF64classify, SFclassify.
  destruct (Prim2SF x) as [s|s| |s m e]; try destruct s; intros H;
    try discriminate H; try reflexivity;
    destruct (Z.pos (digits2_pos m) =? prec); discriminate H.
Qed.

Lemma max_step_first (number : float) :
  fnonneg number -> max_step neg_infinity number = number.
Proof.
  intros Hn. unfold max_step.
  replace (is_neg_zero neg_infinity) with false by (vm_compute; reflexivity).
  rewrite andb_false_r, FloatAxioms.ltb_spec.
  change (Prim2SF neg_infinity) with (S754_infinity true).
  unfold fnonneg in Hn.
  destruct (Prim2SF number) as [s|s| |s m e]; cbn [nonneg] in Hn;
    try contradiction; subst; reflexivity.
Qed.

Lemma max_step_nonneg (highest number : float) :
  fnonneg highest -> fnonneg number ->
  let higher := max_step highest number in
  (higher = highest \/ higher = number)
  /\ fval highest <= fval higher /\ fval number <= fval higher.
Proof.
  intros Hh Hn higher. subst higher. unfold max_step.
  destruct (is_pos_zero number && is_neg_zero highest) eqn:Ez.
  - apply andb_prop in Ez. destruct Ez as [Ep Em].
    apply is_pos_zero_spec in Ep. apply is_neg_zero_spec in Em.
    unfold fval. rewrite Ep, Em. cbn [val]. split; [now right | lia].
  - destruct (PrimFloat.ltb highest number) eqn:El.
    + apply ltb_fval in El; try assumption. split; [now right | lia].
    + split; [now left|]. split; [lia|].
      destruct (Z.le_gt_cases (fval number) (fval highest)) as [H|H]; [exact H|].
      apply ltb_fval in H; try assumption. congruence.
Qed.

Lemma fold_max_step (values : list float) (highest : float) :
  fnonneg highest -> (forall v, In v values -> fnonneg v) ->
  let result := fold_left max_step values highest in
  (result = highest \/ In result values)
  /\ fval highest <= fval result
  /\ forall v, In v values -> fval v <= fval result.
Proof.
  revert highest. induction values as [|number values IH]; intros highest Hh Hv.
  - cbn [fold_left]. split; [now left|]. split; [lia | intros v []].
  - cbn [fold_left].
    assert (Hn : fnonneg number) by (apply Hv; now left).
    destruct (max_step_nonneg highest number Hh Hn) as (Hcase & Hle1 & Hle2).
    assert (Hh' : fnonneg (max_step highest number)).
    { destruct Hcase as [-> | ->]; assumption. }
    destruct (IH _ Hh' (fun v H => Hv v (or_intror H))) as (Hin & Hle & Hall).
    split; [|split].
    + destruct Hin as [-> | Hin]; [|right; now right].
      destruct Hcase as [-> | ->]; [now left | right; now left].
    + lia.
    + intros v [<- | Hin']; [lia | now apply Hall].
Qed.

(** X18: [maxSavings] is [NaN] as soon as one final amount is; when none of
    them is negative, it is one of them and none is above it. *)
Theorem math_max_is_largest (values : list float) :
  ((exists v, In v values /\ PrimFloat.is_nan v = true) -> math_max values = nan)
  /\ (values <> [] ->
      (forall v, In v values -> PrimFloat.leb 0%float v = true) ->
      In (math_max values) values
      /\ forall v, In v values -> PrimFloat.leb v (math_max values) = true).
Proof.
  unfold math_max. split.
  - intros (v & Hin & Hnan).
    assert (E : existsb PrimFloat.is_nan values = true).
    { apply existsb_exists. now exists v. }
    now rewrite E.
  - intros Hne Hpos.
    assert (Hv : forall v, In v values -> fnonneg v).
    { intros v Hin. apply leb_zero. now apply Hpos. }
    assert (E : existsb PrimFloat.is_nan values = false).
    { destruct (existsb PrimFloat.is_nan values) eqn:E; [|reflexivity].
      apply existsb_exists in E. destruct E as (v & Hin & Hnan).
      apply is_nan_spec in Hnan. specialize (Hv v Hin). unfold fnonneg in Hv.
      rewrite Hnan in Hv. contradiction. }
    rewrite E. destruct values as [|first rest]; [contradiction|].
    cbn [fold_left]. rewrite max_step_first by (apply Hv; now left).
    destruct (fold_max_step rest first (Hv first (or_introl eq_refl))
                (fun v H => Hv v (or_intror H))) as (Hin & Hle & Hall).
    assert (Hres : In (fold_left max_step rest first) (first :: rest)).
    { destruct Hin as [-> | Hin]; [now left | now right]. }
    split; [exact Hres|].
    intros v Hin'. apply leb_fval; [now apply Hv | now apply Hv |].
    destruct Hin' as [<- | Hin']; [exact Hle | now apply Hall].
Qed.

End Math_max.

(** ** Nothing saved, nothing paid in *)

Section Idle.

Import Binary64 Binary64Facts.

Variable math_pow : float -> Z -> float.

Lemma idle_step (f : float) :
  fnonneg f -> unit_val <= fval f < top ->
  PrimFloat.add (PrimFloat.mul 0%float f) 0%float = 0%float.
Proof.
  intros Hf Hb. destruct (finite_of_bounds f Hf Hb) as (m & e & E).
  assert (Hmul : PrimFloat.mul 0%float f = 0%float).
  { rewrite <- (SF2Prim_Prim2SF (PrimFloat.mul _ _)), FloatAxioms.mul_spec, E.
    reflexivity. }
  rewrite Hmul. reflexivity.
Qed.

Lemma idle_balance (m : SimulationInputs float) (years : nat) :
  currentSavings m = 0%float -> monthlyContribution m = 0%float ->
  PrimFloat.leb 0%float (expectedReturn m) = true ->
  PrimFloat.leb (expectedReturn m) 15%float = true ->
  balance_after (N := float_number math_pow) m years = 0%float.
Proof.
  intros Hs Hc Hr0 Hr15. unfold balance_after. rewrite Hs, Hc.
  destruct (growth_factor _ Hr0 Hr15) as [Hf Hb].
  induction (12 * years)%nat as [|n IH]; [reflexivity|].
  rewrite Nat.iter_succ, IH. exact (idle_step _ Hf Hb).
Qed.

(** X19: with nothing saved and nothing paid in, at a return between 0 and
    15, every scenario of the set ends at [0], so every card's savings
    difference and every progress value is [NaN]. *)
Theorem idle_cards_not_a_number (inputs : SimulationInputs float) :
  currentSavings inputs = 0%float -> monthlyContribution inputs = 0%float ->
  PrimFloat.leb 0%float (expectedReturn inputs) = true ->
  PrimFloat.leb (expectedReturn inputs) 15%float = true ->
  forall cards,
    ScenarioComparison (buildScenarios (N := float_number math_pow) inputs)
    = Some cards ->
    List.length cards = 5%nat
    /\ forall card, In card cards ->
         finalAmount (card_scenario card) = 0%float
         /\ card_savingsDiff card = nan
         /\ card_progress card = nan.
Proof.
  intros Hs Hc Hr0 Hr15 cards Hcards.
  set (scenarios := buildScenarios (N := float_number math_pow) inputs) in *.
  assert (Hzero : forall s, In s scenarios -> finalAmount s = 0%float).
  { intros s Hin. subst scenarios. unfold buildScenarios in Hin. cbn [In] in Hin.
    destruct Hin as [<- | [<- | [<- | [<- | [<- | []]]]]];
      rewrite (calculateScenario_finalAmount (N := float_number math_pow));
      apply idle_balance; try assumption; reflexivity. }
  assert (E : ScenarioComparison scenarios
              = Some (map (card_of (calculateScenario (N := float_number math_pow)
                                      inputs "Base Case" "#0891b2" no_modifications)
                             (math_max (map finalAmount scenarios)))
                        scenarios)) by reflexivity.
  rewrite E in Hcards. clear E.
  set (base := calculateScenario inputs "Base Case" "#0891b2" no_modifications) in *.
  set (maxSavings := math_max (map finalAmount scenarios)) in *.
  assert (Ec : map (card_of base maxSavings) scenarios = cards) by congruence.
  subst cards. split; [reflexivity|].
  assert (Hmax : maxSavings = 0%float).
  { subst maxSavings.
    rewrite (map_ext_in finalAmount (fun _ => 0%float) scenarios Hzero).
    reflexivity. }
  assert (Hbase : finalAmount base = 0%float) by (apply Hzero; now left).
  intros card Hcard. apply in_map_iff in Hcard. destruct Hcard as (s & <- & Hin).
  cbn [card_of card_scenario card_savingsDiff card_progress].
  rewrite Hmax, (Hzero s Hin), Hbase.
  repeat split; reflexivity.
Qed.

End Idle.

(** ** The theorems of this part at concrete inputs *)

(** [handleInputChange_twice]: two edits of the savings, and one of the
    current age before or after. *)
Lemma handleInputChange_twice_initial :
  k_currentAge <> k_currentSavings
  /\ handleInputChange k_currentSavings 2%float
       (handleInputChange k_currentSavings 1%float initial_inputs)
     = handleInputChange k_currentSavings 2%float initial_inputs
  /\ handleInputChange k_currentSavings 2%float
       (handleInputChange k_currentAge 40 initial_inputs)
     = handleInputChange k_currentAge 40
         (handleInputChange k_currentSavings 2%float initial_inputs).
Proof.
  assert (Hne : k_currentAge <> k_currentSavings) by discriminate.
  split; [exact Hne|].
  destruct (handleInputChange_twice (num := float) k_currentSavings 1%float 2%float
              initial_inputs) as [Hlast Hswap].
  split; [exact Hlast | exact (Hswap k_currentAge 40 Hne)].
Defined.

(** [never_below_start] on the initial inputs. *)
Lemma never_below_start_initial :
  PrimFloat.leb 0%float 50000%float = true
  /\ PrimFloat.leb 0%float 2000%float = true
  /\ PrimFloat.leb 0%float 7%float = true
  /\ PrimFloat.leb 7%float 15%float = true
  /\ forall math_pow : float -> Z -> float,
       let r := calculateScenario (N := float_number math_pow) initial_inputs
                  "Base Case" "#0891b2" no_modifications in
       PrimFloat.leb 50000%float (finalAmount r) = true
       /\ forall p, In p (data r) ->
            PrimFloat.leb 50000%float (amount p) = true
            /\ PrimFloat.is_nan (amount p) = false.
Proof.
  do 4 (split; [reflexivity|]).
  intros math_pow.
  exact (never_below_start math_pow initial_inputs "Base Case" "#0891b2"
           no_modifications eq_refl eq_refl eq_refl eq_refl).
Defined.

(** [earlier_retirement_never_more] on the initial inputs: retiring at 60
    instead of 65. *)
Lemma earlier_retirement_never_more_initial :
  PrimFloat.leb 0%float 50000%float = true
  /\ PrimFloat.leb 0%float 2000%float = true
  /\ PrimFloat.leb 0%float 7%float = true
  /\ PrimFloat.leb 7%float 15%float = true
  /\ 60 <= retirementAge initial_inputs
  /\ forall math_pow : float -> Z -> float,
       PrimFloat.leb
         (finalAmount (calculateScenario (N := float_number math_pow) initial_inputs
                         "Early Retirement (60)" "#7c3aed" (only_retirementAge 60)))
         (finalAmount (calculateScenario (N := float_number math_pow) initial_inputs
                         "Base Case" "#0891b2" no_modifications)) = true.
Proof.
  assert (Hage : 60 <= retirementAge initial_inputs) by (cbn; lia).
  do 4 (split; [reflexivity|]). split; [exact Hage|].
  intros math_pow.
  exact (proj2 (earlier_retirement_never_more math_pow initial_inputs
                  "Early Retirement (60)" "#7c3aed" "Base Case" "#0891b2"
                  eq_refl eq_refl eq_refl eq_refl) 60 Hage).
Defined.

(** [combinedData_rows]: a first series without a point leaves the chart
    empty, whatever the second holds. *)
Lemma combinedData_rows_without_base :
  data (series_of "A" []) = []
  /\ (forall s, In s [series_of "A" []; series_of "B" [point_40]] ->
        name s <> "year"%string)
  /\ combinedData [series_of "A" []; series_of "B" [point_40]] = []
  /\ map (row_get "year") (combinedData [series_of "A" []; series_of "B" [point_40]])
     = map (fun p => Some (AgeCell (year p))) (data (series_of "A" [])).
Proof.
  assert (Hdata : data (series_of "A" []) = []) by reflexivity.
  assert (Hyear : forall s, In s [series_of "A" []; series_of "B" [point_40]] ->
                    name s <> "year"%string).
  { intros s [<- | [<- | []]]; discriminate. }
  split; [exact Hdata|]. split; [exact Hyear|].
  destruct (combinedData_rows [series_of "A" []; series_of "B" [point_40]])
    as (_ & Hempty & Hages).
  split; [exact (Hempty Hdata) | exact (Hages Hyear)].
Defined.

(** [combinedData_lookup]: one series with a point at 40, one without. *)
Lemma combinedData_lookup_two_series :
  NoDup ("year"%string
         :: flat_map series_keys [series_of "A" [point_40]; series_of "B" []])
  /\ Forall2
       (fun (basePoint : DataPoint float) (row : DataRow float) =>
          row_get "year" row = Some (AgeCell (year basePoint))
          /\ forall s, In s [series_of "A" [point_40]; series_of "B" []] ->
               name s <> "__proto__"%string ->
               row_get (name s) row
               = option_map (fun p => NumCell (amount p))
                   (find (fun p => year p =? year basePoint) (data s))
               /\ row_get (name s ++ "_real") row
                  = option_map (fun p => NumCell (realValue p))
                      (find (fun p => year p =? year basePoint) (data s)))
       (data (series_of "A" [point_40]))
       (combinedData [series_of "A" [point_40]; series_of "B" []]).
Proof.
  assert (Hkeys : NoDup ("year"%string
                         :: flat_map series_keys
                              [series_of "A" [point_40]; series_of "B" []])).
  { repeat (constructor; [cbn [In flat_map series_keys app name series_of];
                          intuition discriminate|]). constructor. }
  split; [exact Hkeys|].
  exact (combinedData_lookup (series_of "A" [point_40]) [series_of "B" []] Hkeys).
Defined.

(** [chart_of_buildScenarios] on the initial inputs: the row of age 61 has
    nothing for "Early Retirement (60)". *)
Lemma chart_of_buildScenarios_initial :
  Z.of_nat 31 <= yearsToRetirement initial_inputs
  /\ In ("Early Retirement (60)"%string, "#7c3aed"%string, only_retirementAge 60)
       (catalogue (N := float_number pow_repeated))
  /\ exists row,
       nth_error (combinedData
                    (buildScenarios (N := float_number pow_repeated) initial_inputs)) 31
       = Some row
       /\ row_get "year" row = Some (AgeCell 61)
       /\ row_get "Early Retirement (60)" row = None
       /\ row_get "Early Retirement (60)_real" row = None.
Proof.
  assert (Hi : Z.of_nat 31 <= yearsToRetirement initial_inputs) by (cbn; lia).
  assert (Hin : In ("Early Retirement (60)"%string, "#7c3aed"%string,
                    only_retirementAge 60)
                  (catalogue (N := float_number pow_repeated))).
  { right. right. left. reflexivity. }
  split; [exact Hi|]. split; [exact Hin|].
  destruct (proj2 (chart_of_buildScenarios (N := float_number pow_repeated)
                     initial_inputs) 31%nat Hi) as (row & Hrow & Hyear & Hall).
  exists row. split; [exact Hrow|]. split; [exact Hyear|].
  exact (Hall _ _ _ Hin).
Defined.

(** [ScenarioComparison_baseline]: nothing is rendered for one outcome that
    is not the baseline; of three outcomes with the baseline second, the
    cards are taken against the second. *)
Lemma ScenarioComparison_baseline_sample :
  (forall s, In s [outcome_of "Plan B" 150%float 6%float] ->
     name s <> "Base Case"%string)
  /\ ScenarioComparison [outcome_of "Plan B" 150%float 6%float] = None
  /\ ScenarioComparison sample_plans = Some sample_cards
  /\ map card_scenario sample_cards = sample_plans
  /\ exists front baseScenario back,
       sample_plans = front ++ baseScenario :: back
       /\ name baseScenario = "Base Case"%string
       /\ (forall s, In s front -> name s <> "Base Case"%string)
       /\ forall card, In card sample_cards ->
            card_savingsDiff card
            = calculateDifference (finalAmount (card_scenario card))
                (finalAmount baseScenario)
            /\ card_incomeDiff card
               = calculateDifference (monthlyIncome (card_scenario card))
                   (monthlyIncome baseScenario)
            /\ (card_savingsTrend card = None
                <-> name (card_scenario card) = "Base Case"%string)
            /\ (card_incomeTrend card = None
                <-> name (card_scenario card) = "Base Case"%string).
Proof.
  assert (Hnone : forall s, In s [outcome_of "Plan B" 150%float 6%float] ->
                    name s <> "Base Case"%string).
  { intros s [<- | []]. discriminate. }
  assert (Hsome : ScenarioComparison sample_plans = Some sample_cards) by reflexivity.
  split; [exact Hnone|].
  split; [exact (proj2 (proj1 (ScenarioComparison_baseline
                                 [outcome_of "Plan B" 150%float 6%float])) Hnone)|].
  split; [exact Hsome|].
  exact (proj2 (ScenarioComparison_baseline sample_plans) sample_cards Hsome).
Defined.

(** [comparison_of_buildScenarios] on the initial inputs. *)
Lemma comparison_of_buildScenarios_initial :
  exists cards,
    ScenarioComparison (buildScenarios (N := float_number pow_repeated) initial_inputs)
    = Some cards
    /\ map card_isBaseCase cards = [true; false; false; false; false]
    /\ map card_insight cards
       = [ "Your baseline retirement projection";
           "Higher inflation reduces purchasing power of retirement savings";
           "Retiring 5 years early significantly reduces accumulation time";
           "Lower returns require higher savings or later retirement";
           "Higher returns can significantly boost retirement readiness" ]%string.
Proof.
  destruct (comparison_of_buildScenarios pow_repeated initial_inputs) as [Hcards Hall].
  eexists. split; [exact Hcards|]. exact (Hall _ Hcards).
Defined.

(** [difference_marks]: [NaN] is grey. *)
Lemma difference_marks_nan :
  PrimFloat.is_nan nan = true
  /\ getDifferenceColor nan = "text-muted-foreground"%string.
Proof.
  assert (H : PrimFloat.is_nan nan = true) by reflexivity.
  split; [exact H|].
  exact (proj2 (proj2 (proj2 (proj2 (difference_marks nan)))) H).
Defined.

(** [math_max_is_largest] on three amounts. *)
Lemma math_max_is_largest_three :
  [1%float; 3%float; 2%float] <> []
  /\ (forall v, In v [1%float; 3%float; 2%float] -> PrimFloat.leb 0%float v = true)
  /\ In (math_max [1%float; 3%float; 2%float]) [1%float; 3%float; 2%float]
  /\ forall v, In v [1%float; 3%float; 2%float] ->
       PrimFloat.leb v (math_max [1%float; 3%float; 2%float]) = true.
Proof.
  assert (Hne : [1%float; 3%float; 2%float] <> []) by discriminate.
  assert (Hpos : forall v, In v [1%float; 3%float; 2%float] ->
                   PrimFloat.leb 0%float v = true).
  { intros v [<- | [<- | [<- | []]]]; reflexivity. }
  split; [exact Hne|]. split; [exact Hpos|].
  exact (proj2 (math_max_is_largest [1%float; 3%float; 2%float]) Hne Hpos).
Defined.

(** [idle_cards_not_a_number] on the idle inputs. *)
Lemma idle_cards_not_a_number_idle :
  currentSavings idle_inputs = 0%float
  /\ monthlyContribution idle_inputs = 0%float
  /\ PrimFloat.leb 0%float (expectedReturn idle_inputs) = true
  /\ PrimFloat.leb (expectedReturn idle_inputs) 15%float = true
  /\ forall (math_pow : float -> Z -> float) cards,
       ScenarioComparison (buildScenarios (N := float_number math_pow) idle_inputs)
       = Some cards ->
       List.length cards = 5%nat
       /\ forall card, In card cards ->
            finalAmount (card_scenario card) = 0%float
            /\ card_savingsDiff card = nan
            /\ card_progress card = nan.
Proof.
  do 4 (split; [reflexivity|]).
  intros math_pow.
  exact (idle_cards_not_a_number math_pow idle_inputs eq_refl eq_refl eq_refl eq_refl).
Defined.

(** [inflation_card_is_flat] on the initial inputs. *)
Lemma inflation_card_is_flat_initial :
  PrimFloat.ltb 0%float
    (finalAmount (calculateScenario (N := float_number pow_repeated) initial_inputs
                    "Base Case" "#0891b2" no_modifications)) = true
  /\ PrimFloat.ltb
       (finalAmount (calculateScenario (N := float_number pow_repeated) initial_inputs
                       "Base Case" "#0891b2" no_modifications)) infinity = true
  /\ forall cards,
       ScenarioComparison (buildScenarios (N := float_number pow_repeated)
                             initial_inputs) = Some cards ->
       exists card,
         nth_error cards 1 = Some card
         /\ name (card_scenario card) = "Inflation Spike (5%)"%string
         /\ card_savingsDiff card = 0%float
         /\ card_savingsTrend card
            = Some {| trend_color := "text-muted-foreground";
                      trend_icon :=
                        {| icon_component := "Minus";
                           icon_className := "h-4 w-4 text-muted-foreground" |};
                      trend_sign := "" |}.
Proof.
  assert (Hpos : PrimFloat.ltb 0%float
                   (finalAmount (calculateScenario (N := float_number pow_repeated)
                                   initial_inputs "Base Case" "#0891b2"
                                   no_modifications)) = true).
  { rewrite (calculateScenario_finalAmount (N := float_number pow_repeated)).
    vm_compute. reflexivity. }
  assert (Hfin : PrimFloat.ltb
                   (finalAmount (calculateScenario (N := float_number pow_repeated)
                                   initial_inputs "Base Case" "#0891b2"
                                   no_modifications)) infinity = true).
  { rewrite (calculateScenario_finalAmount (N := float_number pow_repeated)).
    vm_compute. reflexivity. }
  split; [exact Hpos|]. split; [exact Hfin|].
  exact (inflation_card_is_flat pow_repeated initial_inputs Hpos Hfin).
Defined.

(** [difference_from_zero]: a value of 5 against a baseline of [-0]. *)
Lemma difference_from_zero_negative_zero :
  PrimFloat.eqb neg_zero 0%float = true
  /\ calculateDifference 5%float neg_zero = neg_infinity
  /\ trend_color (trend_of (calculateDifference 5%float neg_zero))
     = "text-destructive"%string
  /\ trend_sign (trend_of (calculateDifference 5%float neg_zero)) = ""%string.
Proof.
  assert (Hzero : PrimFloat.eqb neg_zero 0%float = true) by reflexivity.
  split; [exact Hzero|].
  exact (difference_from_zero 5%float neg_zero Hzero).
Defined.
